(** * Smart Money Marker: the ingestion-and-query pipeline

    A shallow embedding of [database/models.py] (class [WalletModel]),
    [database/mongo_client.py] (class [MongoClientWrapper]) and of the
    pipeline driver [sol_wallets_scraper.py] (class [SOLWalletsScraper]),
    followed by the properties of the specification that concern them.

    Python dictionaries are finite maps from field names to values, held in a
    heap of objects so that aliasing and in-place mutation are visible.  The
    MongoDB collection is a list of documents together with the semantics of
    [replace_one(..., upsert=True)], [find], [sort] and [limit] that the
    wrapper relies on; which writes the driver and the server take, and what
    query operators select, is a parameter of the state. *)

From Stdlib Require Import QArith Qcanon Permutation Sorted Ascii.
From stdpp Require Import gmap strings list fin_maps sorting.

Local Open Scope Z_scope.

(** ** Python values *)

(** The values a wallet field can hold.  Numbers (Python [int] and finite
    [float]) are rationals, which keeps their order and their equality;
    [datetime] objects are instants on an integer time line; a nested
    document such as [risk] is kept flat, since this code never looks inside
    one. *)
Inductive pyval : Type :=
  | PNone
  | PBool (b : bool)
  | PNum (q : Qc)
  | PStr (s : string)
  | PTime (t : Z)
  | PDict (items : list (string * string)).

#[global] Instance pyval_eq_dec : EqDecision pyval.
Proof. solve_decision. Defined.

(** Python truthiness, as used by [not wallet_data[field]]. *)
Definition truthy (v : pyval) : bool :=
  match v with
  | PNone => false
  | PBool b => b
  | PNum q => bool_decide (q ≠ 0%Qc)
  | PStr s => bool_decide (s ≠ ""%string)
  | PTime _ => true
  | PDict items => bool_decide (items ≠ [])
  end.

(** The outcome of a Python expression that may raise. *)
Inductive result (A : Type) : Type :=
  | Ok (a : A)
  | Raise.
Arguments Ok {A} a.
Arguments Raise {A}.

(** [v >= m] for a numeric threshold [m]: defined on numbers and on booleans
    (a [bool] is an [int]), a [TypeError] on everything else. *)
Definition py_ge (v : pyval) (m : Qc) : result bool :=
  match v with
  | PNum q => Ok (bool_decide (m ≤ q)%Qc)
  | PBool b => Ok (bool_decide (m ≤ (if b then 1 else 0))%Qc)
  | _ => Raise
  end.

(** ** Documents, objects and the world *)

Abbreviation document := (gmap string pyval).

Definition loc := nat.

Record stats : Type := mkStats { inserted : nat; updated : nat; errors : nat }.

#[global] Instance stats_eq_dec : EqDecision stats.
Proof. solve_decision. Defined.

(** The messages of [upsert_wallet] and of the batch loop that tell what
    happened to a record. *)
Inductive event : Type :=
  | LogInserted (addr : pyval)
  | LogUpdated (addr : pyval)
  | LogError.

#[global] Instance event_eq_dec : EqDecision event.
Proof. solve_decision. Defined.

(** What the model leaves to the database and to its driver.
    [accepts k r c]: the write [replace_one({"wallet_address": k}, r,
    upsert=True)] into the collection [c] is taken, that is, the driver can
    encode [k] and [r] and the server does not reject them; a Python [int]
    outside 64 bits, a field name the server does not allow, a change of
    [_id] or an operator it does not know make the call raise.
    [matches ops d]: the query operators [ops], given as the value of
    [wallet_address] in a filter, select the document [d]. *)
Record database : Type := mkDatabase {
  accepts : pyval → document → list document → bool;
  matches : list (string * string) → document → bool
}.

(** The state the program runs in: the heap of Python dictionaries, the
    MongoDB collection, the clock read by [datetime.utcnow()], the number of
    write requests sent to the collection, the log, and the database the
    collection lives in. *)
Record world : Type := mkWorld {
  heap : gmap loc document;
  coll : list document;
  clock : Z;
  store_calls : nat;
  log : list event;
  mongod : database
}.

(** A reference is read through [deref]; references never dangle in Python,
    and a location outside the heap reads as the empty dictionary. *)
Definition deref (h : gmap loc document) (l : loc) : document :=
  default ∅ (h !! l).

Definition set_heap (h : gmap loc document) (w : world) : world :=
  mkWorld h (coll w) (clock w) (store_calls w) (log w) (mongod w).

Definition set_coll (c : list document) (w : world) : world :=
  mkWorld (heap w) c (clock w) (store_calls w) (log w) (mongod w).

Definition add_log (e : event) (w : world) : world :=
  mkWorld (heap w) (coll w) (clock w) (store_calls w) (log w ++ [e]) (mongod w).

Definition count_call (w : world) : world :=
  mkWorld (heap w) (coll w) (clock w) (S (store_calls w)) (log w) (mongod w).

(** [datetime.utcnow()]: the clock is read and moves on. *)
Definition utcnow (w : world) : pyval * world :=
  (PTime (clock w),
   mkWorld (heap w) (coll w) (clock w + 1) (store_calls w) (log w) (mongod w)).

(** ** database/models.py *)

Module WalletModel.

(** [_validate_wallet_data]: the one required field is [wallet_address]. *)
Definition required_fields : list string := ["wallet_address"%string].

Definition _validate_wallet_data (wallet_data : document) : bool :=
  forallb (fun field =>
             match wallet_data !! field with
             | None => false
             | Some v => truthy v
             end) required_fields.

(** [enrich_wallet_data]: the copy is a new object; the caller's is read
    only. *)
Definition enrich_wallet_data (raw : loc) (w : world) : option loc * world :=
  let enriched := fresh (dom (heap w)) in
  let w1 := set_heap (<[enriched := deref (heap w) raw]> (heap w)) w in
  let '(now, w2) := utcnow w1 in
  let w3 := set_heap (<[enriched := <["scrapeTimestamp"%string := now]>
                                      (deref (heap w2) enriched)]> (heap w2)) w2 in
  if _validate_wallet_data (deref (heap w3) enriched)
  then (Some enriched, w3)
  else (None, w3).

(** One turn of the loop of [filter_by_winrate]: [wallet.get('winrate_7d', 0)]
    then the test [winrate is not None and winrate >= min_winrate]. *)
Definition winrate_of (wallet : document) : pyval :=
  default (PNum 0%Qc) (wallet !! "winrate_7d"%string).

Definition passes (wallet : document) (min_winrate : Qc) : result bool :=
  match winrate_of wallet with
  | PNone => Ok false
  | v => py_ge v min_winrate
  end.

Fixpoint filter_loop (h : gmap loc document) (wallets : list loc)
    (min_winrate : Qc) (filtered_wallets : list loc) : result (list loc) :=
  match wallets with
  | [] => Ok filtered_wallets
  | wallet :: rest =>
      match passes (deref h wallet) min_winrate with
      | Ok true => filter_loop h rest min_winrate (filtered_wallets ++ [wallet])
      | Ok false => filter_loop h rest min_winrate filtered_wallets
      | Raise => Raise
      end
  end.

(** [filter_by_winrate]: any exception of the loop is caught and the empty
    list returned. *)
Definition filter_by_winrate (h : gmap loc document) (wallets : list loc)
    (min_winrate : Qc) : list loc :=
  match filter_loop h wallets min_winrate [] with
  | Ok filtered_wallets => filtered_wallets
  | Raise => []
  end.

(** [transform_for_api]: the ten fields of the API view, each read with
    [wallet_data.get] and its default, then the time stamp rendered as text
    when it is a [datetime].  [isoformat] stands for [datetime.isoformat]. *)
Definition transform_for_api (isoformat : Z → string) (wallet_data : document)
    : document :=
  let api_data : document :=
    list_to_map
      [ ("wallet_address"%string, default PNone (wallet_data !! "wallet_address"%string));
        ("realized_profit"%string, default (PNum 0%Qc) (wallet_data !! "realized_profit"%string));
        ("winrate_7d"%string, default (PNum 0%Qc) (wallet_data !! "winrate_7d"%string));
        ("buy"%string, default (PNum 0%Qc) (wallet_data !! "buy"%string));
        ("sell"%string, default (PNum 0%Qc) (wallet_data !! "sell"%string));
        ("last_active"%string, default (PNum 0%Qc) (wallet_data !! "last_active"%string));
        ("scrapeTimestamp"%string, default PNone (wallet_data !! "scrapeTimestamp"%string));
        ("risk"%string, default (PDict []) (wallet_data !! "risk"%string));
        ("pnl_7d"%string, default (PNum 0%Qc) (wallet_data !! "pnl_7d"%string));
        ("pnl_30d"%string, default (PNum 0%Qc) (wallet_data !! "pnl_30d"%string)) ] in
  match api_data !! "scrapeTimestamp"%string with
  | Some (PTime t) => <["scrapeTimestamp"%string := PStr (isoformat t)]> api_data
  | _ => api_data
  end.

End WalletModel.

(** ** database/mongo_client.py *)

Module MongoClientWrapper.

(** *** The collection

    [_create_indexes] puts a unique index on [wallet_address].  MongoDB
    indexes a document that lacks the field under [null]. *)
Definition index_key (d : document) : pyval :=
  default PNone (d !! "wallet_address").

Definition has_key (k : pyval) (d : document) : Prop := index_key d = k.

#[global] Instance has_key_dec k d : Decision (has_key k d).
Proof. unfold has_key. apply _. Defined.

(** The filter [{"wallet_address": k}].  A dictionary whose first key starts
    with [$] is a set of query operators, and which documents they select is
    the server's business; any other value selects the documents whose
    indexed value it is. *)
Definition is_operators (items : list (string * string)) : bool :=
  match items with
  | (op, _) :: _ => String.prefix "$" op
  | [] => false
  end.

Definition filter_selects (s : database) (k : pyval) (d : document) : Prop :=
  match k with
  | PDict items =>
      if is_operators items then matches s items d = true else has_key k d
  | _ => has_key k d
  end.

#[global] Instance filter_selects_dec s k d : Decision (filter_selects s k d).
Proof.
  unfold filter_selects. destruct k; try apply _.
  destruct (is_operators items); apply _.
Defined.

(** The unique index exists when [_create_indexes] could build it, that is
    on a collection without duplicates; it then refuses, with
    [DuplicateKeyError], a write that would leave two documents with the same
    indexed value.  On a collection that already holds duplicates the index
    could not be built, and nothing is refused on its account. *)
Definition index_refuses (c c' : list document) : Prop :=
  NoDup (index_key <$> c) ∧ ¬ NoDup (index_key <$> c').

#[global] Instance index_refuses_dec c c' : Decision (index_refuses c c').
Proof. unfold index_refuses. apply _. Defined.

(** [collection.replace_one({"wallet_address": k}, replacement, upsert=True)]:
    the call raises when the write is not accepted; otherwise the first
    document selected by the filter is replaced as a whole, and when there is
    none the replacement is inserted, unless the unique index refuses.  The
    result tells whether an insertion took place ([upserted_id] is set).
    The identifier MongoDB gives a document, and its rounding of dates to
    milliseconds, are not modelled: the collection holds the replacement as
    it was handed over, and a record is taken to bring no [_id] of its own
    (a false one would make the code read an insertion as an update). *)
Definition replace_one (k : pyval) (replacement : document) (w : world)
    : result bool * world :=
  let w1 := count_call w in
  if accepts (mongod w1) k replacement (coll w1) then
    let '(upserted, c') :=
      match list_find (filter_selects (mongod w1) k) (coll w1) with
      | Some (i, _) => (false, <[i := replacement]> (coll w1))
      | None => (true, coll w1 ++ [replacement])
      end in
    if bool_decide (index_refuses (coll w1) c') then (Raise, w1)
    else (Ok upserted, set_coll c' w1)
  else (Raise, w1).

(** *** Upserts *)

(** [if 'scrapeTimestamp' not in wallet: wallet['scrapeTimestamp'] =
    datetime.utcnow()], on the caller's object. *)
Definition stamp (wallet : loc) (w : world) : world :=
  match deref (heap w) wallet !! "scrapeTimestamp" with
  | Some _ => w
  | None =>
      let '(now, w1) := utcnow w in
      set_heap (<[wallet := <["scrapeTimestamp" := now]> (deref (heap w1) wallet)]>
                  (heap w1)) w1
  end.

(** [upsert_wallet]: [wallet_data['wallet_address']] raises [KeyError] when
    the field is missing; every exception is caught, logged and turned into
    [False]. *)
Definition upsert_wallet (wallet_data : loc) (w : world) : bool * world :=
  let w1 := stamp wallet_data w in
  let d := deref (heap w1) wallet_data in
  match d !! "wallet_address" with
  | None => (false, add_log LogError w1)
  | Some addr =>
      match replace_one addr d w1 with
      | (Ok upserted, w2) =>
          (true, add_log (if upserted then LogInserted addr else LogUpdated addr) w2)
      | (Raise, w2) => (false, add_log LogError w2)
      end
  end.

Definition bump_inserted (s : stats) : stats :=
  mkStats (S (inserted s)) (updated s) (errors s).
Definition bump_updated (s : stats) : stats :=
  mkStats (inserted s) (S (updated s)) (errors s).
Definition bump_errors (s : stats) : stats :=
  mkStats (inserted s) (updated s) (S (errors s)).

(** The body of the [for] loop of [upsert_wallets_batch], with its own
    [try]/[except]. *)
Definition batch_step (wallet : loc) (s : stats) (w : world) : stats * world :=
  let w1 := stamp wallet w in
  let d := deref (heap w1) wallet in
  match d !! "wallet_address" with
  | None => (bump_errors s, add_log LogError w1)
  | Some addr =>
      match replace_one addr d w1 with
      | (Ok true, w2) => (bump_inserted s, w2)
      | (Ok false, w2) => (bump_updated s, w2)
      | (Raise, w2) => (bump_errors s, add_log LogError w2)
      end
  end.

Fixpoint batch_loop (wallets : list loc) (s : stats) (w : world) : stats * world :=
  match wallets with
  | [] => (s, w)
  | wallet :: rest =>
      let '(s1, w1) := batch_step wallet s w in
      batch_loop rest s1 w1
  end.

Definition upsert_wallets_batch (wallets : list loc) (w : world) : stats * world :=
  batch_loop wallets (mkStats 0 0 0) w.

(** *** Queries *)

(** The filter document built by [get_wallets]: per field, a list of range
    operators over a number or a date. *)
Inductive bound : Type :=
  | BNum (q : Qc)
  | BDate (t : Z).

Inductive operator : Type :=
  | Gte (b : bound)
  | Lte (b : bound).

Definition query := list (string * list operator).

(** Comparison operators of MongoDB select only values of the type of their
    operand: a missing field, a [null] or a string is neither above nor below
    a number or a date. *)
Definition holds (op : operator) (v : option pyval) : bool :=
  match op, v with
  | Gte (BNum m), Some (PNum q) => bool_decide (m ≤ q)%Qc
  | Lte (BNum m), Some (PNum q) => bool_decide (q ≤ m)%Qc
  | Gte (BDate t), Some (PTime u) => bool_decide (t ≤ u)
  | Lte (BDate t), Some (PTime u) => bool_decide (u ≤ t)
  | _, _ => false
  end.

Definition selects (q : query) (d : document) : bool :=
  forallb (fun '(field, ops) => forallb (fun op => holds op (d !! field)) ops) q.

Definition find (q : query) (c : list document) : list document :=
  List.filter (selects q) c.

(** The order MongoDB sorts values of different types in: null and missing
    first, then numbers, strings, documents, booleans and dates.  Two nested
    documents are not told apart by the model. *)
Definition bson_rank (v : pyval) : nat :=
  match v with
  | PNone => 1
  | PNum _ => 2
  | PStr _ => 3
  | PDict _ => 4
  | PBool _ => 8
  | PTime _ => 9
  end.

Definition bson_le (a b : pyval) : Prop :=
  match a, b with
  | PNum x, PNum y => (x ≤ y)%Qc
  | PStr x, PStr y => String.leb x y = true
  | PBool x, PBool y => implb x y = true
  | PTime x, PTime y => x ≤ y
  | _, _ => (bson_rank a ≤ bson_rank b)%nat
  end.

#[global] Instance bson_le_dec a b : Decision (bson_le a b).
Proof. destruct a, b; simpl; apply _. Defined.

Definition sort_key (field : string) (d : document) : pyval :=
  default PNone (d !! field).

(** [d1] may come before [d2] in a descending sort on [field]. *)
Definition before_desc (field : string) (d1 d2 : document) : Prop :=
  bson_le (sort_key field d2) (sort_key field d1).

#[global] Instance before_desc_dec field d1 d2 : Decision (before_desc field d1 d2).
Proof. unfold before_desc. apply _. Defined.

(** [cursor.sort(field, -1)].  MongoDB leaves the order of documents with
    equal keys open; the model takes the one of a merge sort. *)
Definition sort_desc (field : string) (c : list document) : list document :=
  merge_sort (before_desc field) c.

(** [cursor.limit(n)] for a non-zero [n]: the driver sends the absolute
    value, and raises [OverflowError] when that does not fit in 64 bits. *)
Definition cursor_limit (n : Z) (c : list document) : result (list document) :=
  if bool_decide (Z.abs n < 2 ^ 63) then Ok (take (Z.abs_nat n) c) else Raise.

(** [get_wallets].  [if limit:] skips the limit when it is [None] or [0];
    a [datetime] is always true, so [if start_date:] tests for [None].  The
    parameters have the types the signature declares: [min_winrate] is a
    float, [limit] an [int] of any size.  Every exception is caught and
    turned into the empty list. *)
Definition get_wallets (min_winrate : option Qc) (limit : option Z)
    (start_date end_date : option Z) (w : world) : list document :=
  let query0 : query := [] in
  let query1 :=
    match min_winrate with
    | Some m => query0 ++ [("winrate_7d"%string, [Gte (BNum m)])]
    | None => query0
    end in
  let query2 :=
    if bool_decide (is_Some start_date ∨ is_Some end_date) then
      let date_filter0 : list operator := [] in
      let date_filter1 :=
        match start_date with
        | Some s => date_filter0 ++ [Gte (BDate s)]
        | None => date_filter0
        end in
      let date_filter2 :=
        match end_date with
        | Some e => date_filter1 ++ [Lte (BDate e)]
        | None => date_filter1
        end in
      query1 ++ [("scrapeTimestamp"%string, date_filter2)]
    else query1 in
  let cursor := sort_desc "scrapeTimestamp" (find query2 (coll w)) in
  let wallets :=
    match limit with
    | Some n => if bool_decide (n ≠ 0) then cursor_limit n cursor else Ok cursor
    | None => Ok cursor
    end in
  match wallets with
  | Ok wallets => wallets
  | Raise => []
  end.

(** [get_wallet]: [find_one] gives the first document the filter selects,
    or [None].  The address is a string, so the filter selects by equality. *)
Definition get_wallet (wallet_address : string) (w : world) : option document :=
  snd <$> list_find (has_key (PStr wallet_address)) (coll w).

#[global] Arguments replace_one : simpl never.
#[global] Arguments stamp : simpl never.
#[global] Arguments upsert_wallet : simpl never.
#[global] Arguments batch_step : simpl never.
#[global] Arguments get_wallets : simpl never.

End MongoClientWrapper.

(** ** sol_wallets_scraper.py *)

Module SOLWalletsScraper.

Import WalletModel MongoClientWrapper.

(** [filter_wallets], with the configured threshold as an argument. *)
Definition filter_wallets (min_winrate : Qc) (wallets : list loc) (w : world)
    : list loc :=
  filter_by_winrate (heap w) wallets min_winrate.

(** [if enriched_wallet:] in [enrich_wallets]: [None] and the empty
    dictionary are false. *)
Definition dict_truthy (h : gmap loc document) (o : option loc) : bool :=
  match o with
  | None => false
  | Some l => bool_decide (deref h l ≠ ∅)
  end.

Fixpoint enrich_loop (wallets : list loc) (enriched_wallets : list loc)
    (w : world) : list loc * world :=
  match wallets with
  | [] => (enriched_wallets, w)
  | wallet :: rest =>
      let '(enriched_wallet, w1) := enrich_wallet_data wallet w in
      if dict_truthy (heap w1) enriched_wallet
      then enrich_loop rest (enriched_wallets ++ option_list enriched_wallet) w1
      else enrich_loop rest enriched_wallets w1
  end.

Definition enrich_wallets (wallets : list loc) (w : world) : list loc * world :=
  enrich_loop wallets [] w.

(** [store_wallets]: nothing is sent to the collection for an empty list. *)
Definition store_wallets (wallets : list loc) (w : world) : stats * world :=
  match wallets with
  | [] => (mkStats 0 0 0, w)
  | _ => upsert_wallets_batch wallets w
  end.

(** [run_scrape].  [raw_wallets] is what [fetch_trending_wallets] returned:
    the records the external source delivered, as objects of the heap. *)
Definition run_scrape (min_winrate : Qc) (raw_wallets : list loc) (w : world)
    : bool * world :=
  let '(start_time, w0) := utcnow w in
  match raw_wallets with
  | [] => (false, w0)
  | _ =>
      match filter_wallets min_winrate raw_wallets w0 with
      | [] => (true, w0)
      | filtered_wallets =>
          match enrich_wallets filtered_wallets w0 with
          | ([], w1) => (false, w1)
          | (enriched_wallets, w1) =>
              let '(storage_stats, w2) := store_wallets enriched_wallets w1 in
              let '(end_time, w3) := utcnow w2 in
              (bool_decide (errors storage_stats = 0%nat), w3)
          end
      end
  end.

End SOLWalletsScraper.

(** ** server.py *)

Module SmartMoneyServer.

Import WalletModel MongoClientWrapper.

(** What a route answers: a body, or the status of an [HTTPException].
    [Unprocessable] is the answer of the framework to a query parameter
    outside the range declared for it. *)
Inductive response (A : Type) : Type :=
  | Http200 (body : A)
  | Http400
  | Http404
  | Unprocessable.
Arguments Http200 {A} body.
Arguments Http400 {A}.
Arguments Http404 {A}.
Arguments Unprocessable {A}.

(** [GET /wallets/{wallet_address}]: [if not wallet] holds for [None] and for
    the empty dictionary. *)
Definition get_wallet_route (isoformat : Z → string) (wallet_address : string)
    (w : world) : response document :=
  match get_wallet wallet_address w with
  | None => Http404
  | Some wallet =>
      if bool_decide (wallet = ∅) then Http404
      else Http200 (transform_for_api isoformat wallet)
  end.

(** Which requests [GET /wallets/<segment>] reach that handler.  The routes
    are tried in the order of their registration, and [/wallets/stats] comes
    before [/wallets/{wallet_address}]; the parameter of the latter matches a
    text that is not empty and holds no [/].  [wallets_path] is [None] when
    the request is answered elsewhere. *)
Fixpoint has_slash (s : string) : bool :=
  match s with
  | EmptyString => false
  | String c rest => Ascii.eqb c "/"%char || has_slash rest
  end.

Definition reaches_get_wallet (segment : string) : bool :=
  negb (bool_decide (segment = ""%string))
  && negb (bool_decide (segment = "stats"%string))
  && negb (has_slash segment).

Definition wallets_path (isoformat : Z → string) (segment : string)
    (w : world) : option (response document) :=
  if reaches_get_wallet segment
  then Some (get_wallet_route isoformat segment w)
  else None.

(** [s.replace('Z', '+00:00')]. *)
Fixpoint replace_Z (s : string) : string :=
  match s with
  | EmptyString => EmptyString
  | String c rest =>
      if Ascii.eqb c "Z"%char then ("+00:00" ++ replace_Z rest)%string
      else String c (replace_Z rest)
  end.

(** The date parameters of [GET /wallets]: an absent or empty string gives no
    bound; [fromisoformat] stands for [datetime.fromisoformat], with [None]
    for its [ValueError], which the route turns into a 400. *)
Definition parse_date (fromisoformat : string → option Z) (date : option string)
    : result (option Z) :=
  match date with
  | None => Ok None
  | Some s =>
      if bool_decide (s = ""%string) then Ok None
      else match fromisoformat (replace_Z s) with
           | Some t => Ok (Some t)
           | None => Raise
           end
  end.

(** [GET /wallets].  [limit] is declared with [ge=1, le=1000]; the body is the
    list of projected wallets and its length ([count]). *)
Definition get_wallets_route (isoformat : Z → string)
    (fromisoformat : string → option Z)
    (min_winrate : option Qc) (limit : option Z)
    (start_date end_date : option string) (w : world)
    : response (list document * nat) :=
  if match limit with Some n => bool_decide (1 ≤ n ≤ 1000) | None => true end then
    match parse_date fromisoformat start_date with
    | Raise => Http400
    | Ok start_dt =>
        match parse_date fromisoformat end_date with
        | Raise => Http400
        | Ok end_dt =>
            let wallets := get_wallets min_winrate limit start_dt end_dt w in
            let api_wallets := transform_for_api isoformat <$> wallets in
            Http200 (api_wallets, length api_wallets)
        end
    end
  else Unprocessable.

End SmartMoneyServer.

(** ** Vocabulary of the properties *)

Import WalletModel MongoClientWrapper SOLWalletsScraper SmartMoneyServer.

(** A rational written as a fraction, for the examples. *)
Definition ratio (n : Z) (d : positive) : Qc := Q2Qc (n # d).

(** The number a value stands for in a Python comparison, if any. *)
Definition numeric (v : pyval) : option Qc :=
  match v with
  | PNum q => Some q
  | PBool b => Some (if b then 1%Qc else 0%Qc)
  | _ => None
  end.

(** [v] is a number and at least [m]. *)
Definition at_least (m : Qc) (v : pyval) : bool :=
  match numeric v with
  | Some q => bool_decide (m ≤ q)%Qc
  | None => false
  end.

(** A winrate the comparison of [filter_by_winrate] accepts: none at all,
    [None], or a number. *)
Definition winrate_comparable (d : document) : Prop :=
  match d !! "winrate_7d" with
  | None | Some PNone => True
  | Some v => is_Some (numeric v)
  end.

(** The collection a document is upserted into, under its own key. *)
Definition upsert_doc (d : document) (c : list document) : list document :=
  match list_find (has_key (index_key d)) c with
  | Some (i, _) => <[i := d]> c
  | None => c ++ [d]
  end.

(** The indexed values of a collection, and the documents stored for one. *)
Definition keys (c : list document) : list pyval := index_key <$> c.

Definition stored_for (k : pyval) (c : list document) : list document :=
  List.filter (λ d, bool_decide (has_key k d)) c.

(** The record at [l] has a [wallet_address] field. *)
Definition has_address (h : gmap loc document) (l : loc) : bool :=
  bool_decide (is_Some (deref h l !! "wallet_address")).

(** The number of records a [stats] accounts for. *)
Definition accounted (s : stats) : nat :=
  (inserted s + updated s + errors s)%nat.

(** The states of the world the gateway can be in.  The collection starts
    empty and is written by [upsert_wallet] and [upsert_wallets_batch] only;
    the caller may do what it likes to its own objects and time passes.  With
    [validated] set, the caller only hands over records that pass
    [_validate_wallet_data], as the pipeline does after enrichment. *)
Definition admissible (validated : bool) (h : gmap loc document) (l : loc) : Prop :=
  validated = true → _validate_wallet_data (deref h l) = true.

Inductive reachable (validated : bool) : world → Prop :=
  | reach_empty w :
      coll w = [] → reachable validated w
  | reach_upsert w l :
      reachable validated w → admissible validated (heap w) l →
      reachable validated (snd (upsert_wallet l w))
  | reach_batch w ls :
      reachable validated w → Forall (admissible validated (heap w)) ls →
      reachable validated (snd (upsert_wallets_batch ls w))
  | reach_caller w h t :
      reachable validated w →
      reachable validated
        (mkWorld h (coll w) t (store_calls w) (log w) (mongod w)).

(** A filter value that is not a set of query operators. *)
Definition plain (k : pyval) : Prop :=
  match k with
  | PDict items => is_operators items = false
  | _ => True
  end.

(** The database takes every write. *)
Definition takes_all (s : database) : Prop :=
  ∀ k r c, accepts s k r c = true.

(** The address of the record, when it has one, is a string. *)
Definition text_address (d : document) : Prop :=
  match d !! "wallet_address" with
  | Some (PStr _) | None => True
  | Some _ => False
  end.

#[global] Instance text_address_dec d : Decision (text_address d).
Proof.
  unfold text_address. destruct (d !! "wallet_address") as [[]|]; apply _.
Defined.

(** A property of documents that only looks at the address. *)
Definition by_address (P : document → Prop) : Prop :=
  ∀ d d' : document, d !! "wallet_address" = d' !! "wallet_address" → P d → P d'.

(** The documents a query asks for, in the words of the specification:
    [winrate_7d >= min_winrate] and [scrapeTimestamp] within
    [[start_date, end_date]], each constraint dropped when its parameter is
    not given. *)
Definition winrate_reaches (min_winrate : option Qc) (d : document) : bool :=
  match min_winrate with
  | None => true
  | Some m =>
      match d !! "winrate_7d" with
      | Some (PNum q) => bool_decide (m ≤ q)%Qc
      | _ => false
      end
  end.

Definition scraped_from (start_date : option Z) (d : document) : bool :=
  match start_date with
  | None => true
  | Some s =>
      match d !! "scrapeTimestamp" with
      | Some (PTime t) => bool_decide (s ≤ t)
      | _ => false
      end
  end.

Definition scraped_until (end_date : option Z) (d : document) : bool :=
  match end_date with
  | None => true
  | Some e =>
      match d !! "scrapeTimestamp" with
      | Some (PTime t) => bool_decide (t ≤ e)
      | _ => false
      end
  end.

Definition wanted (min_winrate : option Qc) (start_date end_date : option Z)
    (d : document) : bool :=
  winrate_reaches min_winrate d && scraped_from start_date d
  && scraped_until end_date d.

(** The enriched records of a list, one by one: [e] is the copy made of [l]. *)
Definition enriched_from (w w' : world) (l e : loc) : Prop :=
  heap w !! e = None ∧
  ∃ t, clock w ≤ t < clock w' ∧
    heap w' !! e = Some (<["scrapeTimestamp" := PTime t]> (deref (heap w) l)).

(** Two worlds that differ in their logs at most. *)
Definition same_store (w1 w2 : world) : Prop :=
  heap w1 = heap w2 ∧ coll w1 = coll w2 ∧ clock w1 = clock w2 ∧
  store_calls w1 = store_calls w2.

(** [upsert_wallet] called on each record of a list in turn, with the
    answers. *)
Fixpoint upsert_each (ls : list loc) (w : world) : list bool * world :=
  match ls with
  | [] => ([], w)
  | l :: rest =>
      let '(b, w1) := upsert_wallet l w in
      let '(bs, w2) := upsert_each rest w1 in
      (b :: bs, w2)
  end.

(** The counters after a record that [upsert_wallet] answers [b] for. *)
Definition outcome_stats (s : stats) (b : bool) (s' : stats) : Prop :=
  if b then s' = bump_inserted s ∨ s' = bump_updated s else s' = bump_errors s.

(** The fields of the API view, each with the default it is read with. *)
Definition api_fields : list (string * pyval) :=
  [ ("wallet_address"%string, PNone); ("realized_profit"%string, PNum 0%Qc);
    ("winrate_7d"%string, PNum 0%Qc); ("buy"%string, PNum 0%Qc);
    ("sell"%string, PNum 0%Qc); ("last_active"%string, PNum 0%Qc);
    ("scrapeTimestamp"%string, PNone); ("risk"%string, PDict []);
    ("pnl_7d"%string, PNum 0%Qc); ("pnl_30d"%string, PNum 0%Qc) ].

(** A value as the API shows it: a date becomes text. *)
Definition rendered (isoformat : Z → string) (v : pyval) : pyval :=
  match v with PTime t => PStr (isoformat t) | _ => v end.

(** What the API view holds for field [k], read with default [dflt]. *)
Definition api_value (isoformat : Z → string) (d : document) (k : string)
    (dflt : pyval) : pyval :=
  let v := default dflt (d !! k) in
  if decide (k = "scrapeTimestamp"%string) then rendered isoformat v else v.

(** ** Sample data *)

(** A database that takes every write and knows no query operator; one
    whose driver refuses the numbers that do not fit in 64 bits; and one
    that knows the operator [$gt] on strings. *)
Definition lenient : database := mkDatabase (λ _ _ _, true) (λ _ _, false).

Definition fits_int64 (v : pyval) : Prop :=
  match v with
  | PNum q => (Q2Qc (- 2 ^ 63) ≤ q)%Qc ∧ (q < Q2Qc (2 ^ 63))%Qc
  | _ => True
  end.

#[global] Instance fits_int64_dec v : Decision (fits_int64 v).
Proof. destruct v; simpl; apply _. Defined.

Definition sixty_four_bits : database :=
  mkDatabase (λ _ r _, bool_decide (map_Forall (λ _ v, fits_int64 v) r))
    (λ _ _, false).

Definition greater_than : database :=
  mkDatabase (λ _ _ _, true)
    (λ ops d,
       match ops, d !! "wallet_address" with
       | [(op, s)], Some (PStr a) =>
           bool_decide (op = "$gt"%string) && negb (String.leb a s)
       | _, _ => false
       end).

(** A collection holding one document for ["A"], and an object to upsert. *)
Definition wallet_A : document :=
  {[ "wallet_address" := PStr "A"; "winrate_7d" := PNum (ratio 8 10) ]}.

Definition stale_A : document :=
  {[ "wallet_address" := PStr "A"; "winrate_7d" := PNum (ratio 1 10);
     "scrapeTimestamp" := PTime 3 ]}.

Definition world_new : world := mkWorld {[ 0%nat := wallet_A ]} [] 10 0 [] lenient.
Definition world_known : world := mkWorld {[ 0%nat := wallet_A ]} [stale_A] 10 0 [] lenient.

(** Three fetched records: a winrate of 0.8, a [None] winrate and no winrate
    at all. *)
Definition sample_heap : gmap loc document :=
  {[ 0%nat := {[ "wallet_address" := PStr "A"; "winrate_7d" := PNum (ratio 8 10) ]};
     1%nat := {[ "wallet_address" := PStr "B"; "winrate_7d" := PNone ]};
     2%nat := {[ "wallet_address" := PStr "C" ]} ]}.

(** A batch of three: a record for a new address, a record without address,
    and the first record again. *)
Definition batch_heap : gmap loc document :=
  {[ 0%nat := wallet_A; 1%nat := {[ "winrate_7d" := PNum (ratio 9 10) ]} ]}.

Definition batch_world : world := mkWorld batch_heap [] 10 0 [] lenient.

(** Two records no pipeline would hand over: an empty address and a [None]
    address. *)
Definition nameless_world : world :=
  mkWorld {[ 0%nat := {[ "wallet_address" := PStr "" ]};
             1%nat := {[ "wallet_address" := PNone ]} ]} [] 10 0 [] lenient.

(** The scenario of the specification: two fetched records, ["A"] with a
    winrate of 0.8 and ["B"] with 0.3, and a threshold of 0.5. *)
Definition wallet_B : document :=
  {[ "wallet_address" := PStr "B"; "winrate_7d" := PNum (ratio 3 10) ]}.

Definition scenario_world : world :=
  mkWorld {[ 0%nat := wallet_A; 1%nat := wallet_B ]} [] 10 0 [] lenient.

(** Two stored documents: ["A"], winrate 0.9, scraped at 1, and ["B"],
    winrate 0.3, scraped at 2. *)
Definition stored_A : document :=
  {[ "wallet_address" := PStr "A"; "winrate_7d" := PNum (ratio 9 10);
     "scrapeTimestamp" := PTime 1 ]}.

Definition stored_B : document :=
  {[ "wallet_address" := PStr "B"; "winrate_7d" := PNum (ratio 3 10);
     "scrapeTimestamp" := PTime 2 ]}.

Definition query_world : world := mkWorld ∅ [stored_A; stored_B] 10 0 [] lenient.

(** * Properties *)

(** ** The winrate filter *)

Lemma passes_at_least d m b :
  passes d m = Ok b → b = at_least m (winrate_of d).
Proof.
  unfold passes, at_least.
  destruct (winrate_of d) as [|[]| | | |]; simpl; congruence.
Qed.

Lemma passes_comparable d m :
  winrate_comparable d → passes d m = Ok (at_least m (winrate_of d)).
Proof.
  unfold winrate_comparable, passes, at_least, winrate_of.
  destruct (d !! "winrate_7d") as [[|[]| | | |]|]; simpl;
    first [ reflexivity | intros [? [=]] ].
Qed.

Lemma filter_loop_sound h m ws : ∀ acc r,
  filter_loop h ws m acc = Ok r →
  r = acc ++ List.filter (λ l, at_least m (winrate_of (deref h l))) ws.
Proof.
  induction ws as [|l ws IH]; simpl; intros acc r Hr.
  - injection Hr as <-. by rewrite app_nil_r.
  - destruct (passes (deref h l) m) as [[]|] eqn:Hp; [| |done];
      apply passes_at_least in Hp; rewrite <- Hp;
      apply IH in Hr; subst r; [by rewrite <- app_assoc | done].
Qed.

Lemma filter_loop_complete h m ws : ∀ acc,
  Forall (λ l, winrate_comparable (deref h l)) ws →
  filter_loop h ws m acc =
    Ok (acc ++ List.filter (λ l, at_least m (winrate_of (deref h l))) ws).
Proof.
  induction ws as [|l ws IH]; simpl; intros acc Hall.
  - by rewrite app_nil_r.
  - apply Forall_cons in Hall as [Hl Hall].
    rewrite (passes_comparable _ m Hl).
    destruct (at_least m (winrate_of (deref h l))); rewrite IH by done;
      [by rewrite <- app_assoc | done].
Qed.

Lemma filter_by_winrate_cases h ws m :
  filter_by_winrate h ws m = [] ∨
  filter_by_winrate h ws m =
    List.filter (λ l, at_least m (winrate_of (deref h l))) ws.
Proof.
  unfold filter_by_winrate.
  destruct (filter_loop h ws m []) as [r|] eqn:Hr; [|by left].
  right. by apply filter_loop_sound in Hr.
Qed.

(** C1, as the code has it.  When every winrate of the list is missing,
    [None] or a number, [filter_by_winrate] keeps exactly the records whose
    [winrate_7d], read as [0] when the field is missing, is a number at least
    the threshold.  A record whose [winrate_7d] is [None] is left out for
    every list and every threshold, and a record without the field is kept
    exactly when the threshold is at most [0]. *)
Theorem filter_by_winrate_keeps (h : gmap loc document) (ws : list loc) (m : Qc) :
  (Forall (λ l, winrate_comparable (deref h l)) ws →
     filter_by_winrate h ws m =
       List.filter (λ l, at_least m (winrate_of (deref h l))) ws) ∧
  (∀ l, deref h l !! "winrate_7d" = Some PNone →
     l ∉ filter_by_winrate h ws m) ∧
  (Forall (λ l, winrate_comparable (deref h l)) ws →
   ∀ l, l ∈ ws → deref h l !! "winrate_7d" = None →
     (l ∈ filter_by_winrate h ws m ↔ (m ≤ 0)%Qc)).
Proof.
  assert (Hfull : Forall (λ l, winrate_comparable (deref h l)) ws →
     filter_by_winrate h ws m =
       List.filter (λ l, at_least m (winrate_of (deref h l))) ws).
  { intros Hall. unfold filter_by_winrate.
    by rewrite filter_loop_complete. }
  split_and!; [done| |].
  - intros l Hnull Hin.
    destruct (filter_by_winrate_cases h ws m) as [E|E]; rewrite E in Hin.
    + by apply not_elem_of_nil in Hin.
    + apply list_elem_of_In, filter_In in Hin as [_ Hk].
      unfold at_least, winrate_of in Hk. by rewrite Hnull in Hk.
  - intros Hall l Hl Hmiss. rewrite (Hfull Hall).
    rewrite list_elem_of_In, filter_In, <- list_elem_of_In.
    unfold at_least, winrate_of. rewrite Hmiss. simpl.
    rewrite bool_decide_eq_true. tauto.
Qed.

Lemma sample_heap_comparable :
  Forall (λ l, winrate_comparable (deref sample_heap l)) [0; 1; 2]%nat.
Proof. repeat constructor. vm_compute. eauto. Qed.

Lemma filter_by_winrate_keeps_witness :
  filter_by_winrate sample_heap [0; 1; 2]%nat (ratio 1 2) =
    List.filter (λ l, at_least (ratio 1 2) (winrate_of (deref sample_heap l)))
      [0; 1; 2]%nat
  ∧ (1%nat ∉ filter_by_winrate sample_heap [0; 1; 2]%nat (ratio 1 2))
  ∧ (2%nat ∈ filter_by_winrate sample_heap [0; 1; 2]%nat (ratio 1 2)
     ↔ (ratio 1 2 ≤ 0)%Qc).
Proof.
  destruct (filter_by_winrate_keeps sample_heap [0; 1; 2]%nat (ratio 1 2))
    as (Hall & Hnull & Hmiss).
  split_and!.
  - apply Hall, sample_heap_comparable.
  - apply Hnull. reflexivity.
  - apply Hmiss; [apply sample_heap_comparable | | reflexivity].
    apply list_elem_of_In. simpl. tauto.
Defined.

(** C1, as the specification words it, fails: a record without a
    [winrate_7d] field passes the thresholds [0] and [-1]. *)
Lemma filter_by_winrate_missing_passes :
  deref sample_heap 2%nat !! "winrate_7d" = None ∧
  filter_by_winrate sample_heap [2%nat] 0%Qc = [2%nat] ∧
  filter_by_winrate sample_heap [0; 1; 2]%nat (ratio (-1) 1) = [0; 2]%nat.
Proof. split_and!; reflexivity. Qed.

(** ** The collection under [replace_one] *)

Lemma upsert_doc_found d c i d0 :
  list_find (has_key (index_key d)) c = Some (i, d0) →
  upsert_doc d c = take i c ++ d :: drop (S i) c ∧
  c = take i c ++ d0 :: drop (S i) c ∧
  index_key d0 = index_key d.
Proof.
  intros Hf. unfold upsert_doc. rewrite Hf.
  apply list_find_Some in Hf as (Hi & Hk & _).
  split_and!; [|by rewrite take_drop_middle|done].
  apply insert_take_drop. by eapply lookup_lt_Some.
Qed.

Lemma find_key_None k c :
  list_find (has_key k) c = None ↔ k ∉ keys c.
Proof.
  rewrite list_find_None, Forall_forall. unfold keys, has_key.
  rewrite list_elem_of_fmap. split.
  - intros H (d & -> & Hd). by apply (H d).
  - intros H d Hd ?. apply H. by exists d.
Qed.

Lemma Exists_has_key k c : Exists (has_key k) c ↔ k ∈ keys c.
Proof.
  rewrite Exists_exists. unfold keys, has_key. rewrite list_elem_of_fmap.
  split; intros (d & H1 & H2); exists d; by split.
Qed.

Lemma keys_app c1 c2 : keys (c1 ++ c2) = keys c1 ++ keys c2.
Proof. apply fmap_app. Qed.

Lemma keys_upsert_doc d c :
  keys (upsert_doc d c) ≡ₚ
    if bool_decide (index_key d ∈ keys c) then keys c else index_key d :: keys c.
Proof.
  destruct (list_find (has_key (index_key d)) c) as [[i d0]|] eqn:Hf.
  - pose proof (upsert_doc_found _ _ _ _ Hf) as (-> & Hc & Hk).
    rewrite bool_decide_eq_true_2.
    + rewrite Hc at 3. rewrite !keys_app. simpl. by rewrite Hk.
    + rewrite Hc, keys_app. simpl. rewrite Hk. set_solver.
  - unfold upsert_doc. rewrite Hf. apply find_key_None in Hf.
    rewrite bool_decide_eq_false_2 by done.
    rewrite keys_app. simpl. by rewrite Permutation_app_comm.
Qed.

Lemma upsert_doc_unique d c : NoDup (keys c) → NoDup (keys (upsert_doc d c)).
Proof.
  intros Hnd. rewrite keys_upsert_doc. case_bool_decide; [done|].
  by apply NoDup_cons.
Qed.

Lemma upsert_doc_elem d c : d ∈ upsert_doc d c.
Proof.
  destruct (list_find (has_key (index_key d)) c) as [[i d0]|] eqn:Hf.
  - pose proof (upsert_doc_found _ _ _ _ Hf) as (-> & _). set_solver.
  - unfold upsert_doc. rewrite Hf. set_solver.
Qed.

Lemma upsert_doc_Forall (P : document → Prop) d c :
  P d → Forall P c → Forall P (upsert_doc d c).
Proof.
  intros Hd Hc.
  destruct (list_find (has_key (index_key d)) c) as [[i d0]|] eqn:Hf.
  - pose proof (upsert_doc_found _ _ _ _ Hf) as (-> & _).
    apply Forall_app. split; [by apply Forall_take|].
    apply Forall_cons. split; [done | by apply Forall_drop].
  - unfold upsert_doc. rewrite Hf. apply Forall_app. by split; [|constructor].
Qed.

Lemma upsert_doc_length d c :
  length (upsert_doc d c) =
    if bool_decide (index_key d ∈ keys c) then length c else S (length c).
Proof.
  rewrite <- (length_fmap index_key (upsert_doc d c)).
  fold (keys (upsert_doc d c)). rewrite keys_upsert_doc.
  unfold keys. case_bool_decide; simpl; by rewrite length_fmap.
Qed.

Lemma stored_for_absent k c : k ∉ keys c → stored_for k c = [].
Proof.
  unfold stored_for, keys, has_key. induction c as [|d0 c IH]; simpl; [done|].
  rewrite not_elem_of_cons. intros [Hne Hk].
  rewrite bool_decide_eq_false_2 by done. by apply IH.
Qed.

(** In a collection that obeys the unique index, one document answers to a
    key. *)
Lemma stored_for_unique k c d :
  NoDup (keys c) → d ∈ c → index_key d = k → stored_for k c = [d].
Proof.
  induction c as [|d0 c IH]; simpl.
  - intros _ Hd. by apply not_elem_of_nil in Hd.
  - intros Hnd Hd Hk. apply NoDup_cons in Hnd as [Hd0 Hnd].
    unfold stored_for. simpl. fold (stored_for k c).
    apply elem_of_cons in Hd as [->|Hd].
    + rewrite bool_decide_eq_true_2 by done. f_equal.
      apply stored_for_absent. by rewrite <- Hk.
    + rewrite bool_decide_eq_false_2; [by apply IH|].
      intros Hk0. apply Hd0. apply list_elem_of_fmap. exists d.
      split; [unfold has_key in Hk0; congruence | done].
Qed.

(** A value that is no set of operators selects by equality. *)
Lemma filter_selects_plain s k d :
  plain k → filter_selects s k d ↔ has_key k d.
Proof. destruct k; simpl; try done. by intros ->. Qed.

Lemma find_plain s k c :
  plain k → list_find (filter_selects s k) c = list_find (has_key k) c.
Proof.
  intros Hk. apply list_find_ext. intros d. by apply filter_selects_plain.
Qed.

Lemma plain_string a : plain (PStr a).
Proof. done. Qed.

Lemma index_refuses_unique c c' :
  NoDup (keys c) → index_refuses c c' ↔ ¬ NoDup (keys c').
Proof. unfold index_refuses, keys. naive_solver. Qed.

(** On a collection that obeys the unique index, a write under the key of
    the replacement, when that key is no set of operators and the database
    takes the write, succeeds, and it inserts exactly when the key is new. *)
Lemma replace_one_own_key r w :
  NoDup (keys (coll w)) →
  plain (index_key r) →
  accepts (mongod w) (index_key r) r (coll w) = true →
  replace_one (index_key r) r w =
    (Ok (bool_decide (index_key r ∉ keys (coll w))),
     set_coll (upsert_doc r (coll w)) (count_call w)).
Proof.
  intros Hnd Hk Hacc. unfold replace_one. cbn [count_call mongod coll].
  rewrite Hacc, find_plain by done.
  pose proof (upsert_doc_unique r _ Hnd) as Hnd'. unfold upsert_doc in *.
  destruct (list_find (has_key (index_key r)) (coll w)) as [[i d0]|] eqn:Hf.
  - rewrite bool_decide_eq_false_2 by (rewrite index_refuses_unique; auto).
    rewrite bool_decide_eq_false_2; [done|].
    intros Hn. apply find_key_None in Hn. congruence.
  - rewrite bool_decide_eq_false_2 by (rewrite index_refuses_unique; auto).
    apply find_key_None in Hf. by rewrite bool_decide_eq_true_2.
Qed.

(** A write the database does not take changes nothing. *)
Lemma replace_one_refused k r w :
  accepts (mongod w) k r (coll w) = false →
  replace_one k r w = (Raise, count_call w).
Proof. intros Hacc. unfold replace_one. cbn [count_call mongod coll]. by rewrite Hacc. Qed.

(** Whatever the key and the replacement, [replace_one] touches nothing but
    the collection and the call counter. *)
Lemma replace_one_frame k r w :
  heap (snd (replace_one k r w)) = heap w ∧
  clock (snd (replace_one k r w)) = clock w ∧
  log (snd (replace_one k r w)) = log w ∧
  store_calls (snd (replace_one k r w)) = S (store_calls w).
Proof.
  unfold replace_one. destruct (accepts _ _ _ _); [|done].
  destruct (list_find _ _) as [[i d0]|]; case_bool_decide; done.
Qed.

Lemma replace_one_mongod k r w : mongod (snd (replace_one k r w)) = mongod w.
Proof.
  unfold replace_one. destruct (accepts _ _ _ _); [|done].
  destruct (list_find _ _) as [[i d0]|]; case_bool_decide; done.
Qed.

Lemma replace_one_coll k r w :
  (fst (replace_one k r w) = Raise ∧ coll (snd (replace_one k r w)) = coll w) ∨
  (fst (replace_one k r w) = Ok true ∧
     coll (snd (replace_one k r w)) = coll w ++ [r] ∧
     (NoDup (keys (coll w)) → index_key r ∉ keys (coll w))) ∨
  (fst (replace_one k r w) = Ok false ∧
     ∃ i d0, coll w !! i = Some d0 ∧
       coll (snd (replace_one k r w)) = take i (coll w) ++ r :: drop (S i) (coll w) ∧
       (NoDup (keys (coll w)) →
        index_key r ∉ keys (take i (coll w) ++ drop (S i) (coll w)))).
Proof.
  unfold replace_one. cbn [count_call mongod coll].
  destruct (accepts _ _ _ _); [|by left].
  destruct (list_find _ (coll w)) as [[i d0]|] eqn:Hf;
    case_bool_decide as Hex; cbn [fst snd set_coll coll]; auto.
  - right; right. split; [done|]. apply list_find_Some in Hf as (Hi & _).
    exists i, d0. split_and!; [done| |].
    + apply insert_take_drop. by eapply lookup_lt_Some.
    + intros Hnd. rewrite index_refuses_unique in Hex by done.
      apply dec_stable in Hex.
      rewrite insert_take_drop in Hex by by eapply lookup_lt_Some.
      rewrite keys_app in Hex. simpl in Hex.
      rewrite <- Permutation_middle in Hex. apply NoDup_cons in Hex as [Hex _].
      by rewrite keys_app.
  - right; left. split_and!; [done..|].
    intros Hnd. rewrite index_refuses_unique in Hex by done.
    apply dec_stable in Hex. rewrite keys_app in Hex. simpl in Hex.
    rewrite Permutation_app_comm in Hex. by apply NoDup_cons in Hex as [Hex _].
Qed.

Lemma replace_one_inv (P : document → Prop) k r w :
  P r → NoDup (keys (coll w)) → Forall P (coll w) →
  NoDup (keys (coll (snd (replace_one k r w)))) ∧
  Forall P (coll (snd (replace_one k r w))).
Proof.
  intros Hr Hnd Hall.
  destruct (replace_one_coll k r w)
    as [(_ & ->)|[(_ & -> & Hn)|(_ & i & d0 & Hi & -> & Hn)]]; [done| |].
  - specialize (Hn Hnd). split.
    + rewrite keys_app. simpl. rewrite Permutation_app_comm. by apply NoDup_cons.
    + apply Forall_app. by split; [|constructor].
  - specialize (Hn Hnd). split.
    + rewrite keys_app. simpl. rewrite <- Permutation_middle, <- keys_app.
      apply NoDup_cons. split; [done|].
      rewrite <- (take_drop_middle _ _ _ Hi), keys_app in Hnd. simpl in Hnd.
      rewrite <- Permutation_middle in Hnd. apply NoDup_cons in Hnd as [_ Hnd].
      by rewrite keys_app.
    + apply Forall_app. split; [by apply Forall_take|].
      apply Forall_cons. split; [done | by apply Forall_drop].
Qed.

(** ** Stamping and single upserts *)

Lemma deref_insert_eq h l d : deref (<[l := d]> h) l = d.
Proof. unfold deref. by rewrite lookup_insert_eq. Qed.

Lemma deref_insert_ne h l l' d : l ≠ l' → deref (<[l := d]> h) l' = deref h l'.
Proof. intros. unfold deref. by rewrite lookup_insert_ne. Qed.

Lemma stamp_frame l w :
  coll (stamp l w) = coll w ∧ log (stamp l w) = log w ∧
  store_calls (stamp l w) = store_calls w ∧ clock w ≤ clock (stamp l w).
Proof.
  unfold stamp. destruct (deref (heap w) l !! "scrapeTimestamp"); simpl;
    split_and!; try done; lia.
Qed.

Lemma stamp_present l w :
  is_Some (deref (heap w) l !! "scrapeTimestamp") → stamp l w = w.
Proof. intros [v Hv]. unfold stamp. by rewrite Hv. Qed.

Lemma stamp_absent l w :
  deref (heap w) l !! "scrapeTimestamp" = None →
  heap (stamp l w) =
    <[l := <["scrapeTimestamp" := PTime (clock w)]> (deref (heap w) l)]> (heap w).
Proof. intros Hv. unfold stamp. by rewrite Hv. Qed.

Lemma stamp_other l l' w : l ≠ l' → deref (heap (stamp l w)) l' = deref (heap w) l'.
Proof.
  intros Hne. unfold stamp.
  destruct (deref (heap w) l !! "scrapeTimestamp"); [done|]. simpl.
  by apply deref_insert_ne.
Qed.

Lemma stamp_field l l' f w :
  f ≠ "scrapeTimestamp" →
  deref (heap (stamp l w)) l' !! f = deref (heap w) l' !! f.
Proof.
  intros Hf. destruct (decide (l = l')) as [<-|Hne].
  - unfold stamp. destruct (deref (heap w) l !! "scrapeTimestamp"); [done|].
    simpl. rewrite deref_insert_eq. by rewrite lookup_insert_ne.
  - by rewrite stamp_other.
Qed.

Lemma stamp_stamped l w :
  is_Some (deref (heap (stamp l w)) l !! "scrapeTimestamp").
Proof.
  unfold stamp. destruct (deref (heap w) l !! "scrapeTimestamp") eqn:E.
  - by rewrite E.
  - simpl. rewrite deref_insert_eq, lookup_insert_eq. by eexists.
Qed.

Lemma index_key_address d addr :
  d !! "wallet_address" = Some addr → index_key d = addr.
Proof. intros H. unfold index_key. by rewrite H. Qed.

Lemma stamp_mongod l w : mongod (stamp l w) = mongod w.
Proof.
  unfold stamp. by destruct (deref (heap w) l !! "scrapeTimestamp").
Qed.

(** What [upsert_wallet] does to a record that has an address, in a
    collection that obeys the unique index, when the address is no set of
    operators and the database takes the write. *)
Lemma upsert_wallet_unique l w addr :
  NoDup (keys (coll w)) →
  deref (heap w) l !! "wallet_address" = Some addr →
  plain addr →
  accepts (mongod w) addr (deref (heap (stamp l w)) l) (coll w) = true →
  upsert_wallet l w =
    (true,
     add_log (if bool_decide (addr ∉ keys (coll w))
              then LogInserted addr else LogUpdated addr)
       (set_coll (upsert_doc (deref (heap (stamp l w)) l) (coll w))
          (count_call (stamp l w)))).
Proof.
  intros Hnd Ha Hp Hacc. unfold upsert_wallet.
  rewrite stamp_field, Ha by done.
  assert (Hk : index_key (deref (heap (stamp l w)) l) = addr).
  { apply index_key_address. by rewrite stamp_field. }
  destruct (stamp_frame l w) as (Hc & _).
  rewrite <- Hk at 1.
  rewrite replace_one_own_key;
    [| by rewrite Hc | by rewrite Hk | by rewrite Hk, stamp_mongod, Hc].
  by rewrite Hk, Hc.
Qed.

Lemma batch_step_unique l s w addr :
  NoDup (keys (coll w)) →
  deref (heap w) l !! "wallet_address" = Some addr →
  plain addr →
  accepts (mongod w) addr (deref (heap (stamp l w)) l) (coll w) = true →
  batch_step l s w =
    ((if bool_decide (addr ∉ keys (coll w))
      then bump_inserted s else bump_updated s),
     set_coll (upsert_doc (deref (heap (stamp l w)) l) (coll w))
       (count_call (stamp l w))).
Proof.
  intros Hnd Ha Hp Hacc. unfold batch_step.
  rewrite stamp_field, Ha by done.
  assert (Hk : index_key (deref (heap (stamp l w)) l) = addr).
  { apply index_key_address. by rewrite stamp_field. }
  destruct (stamp_frame l w) as (Hc & _).
  rewrite <- Hk at 1.
  rewrite replace_one_own_key;
    [| by rewrite Hc | by rewrite Hk | by rewrite Hk, stamp_mongod, Hc].
  rewrite Hk, Hc. by case_bool_decide.
Qed.

Lemma upsert_wallet_post l w addr :
  NoDup (keys (coll w)) →
  deref (heap w) l !! "wallet_address" = Some addr →
  plain addr →
  accepts (mongod w) addr (deref (heap (stamp l w)) l) (coll w) = true →
  fst (upsert_wallet l w) = true ∧
  heap (snd (upsert_wallet l w)) = heap (stamp l w) ∧
  coll (snd (upsert_wallet l w)) =
    upsert_doc (deref (heap (stamp l w)) l) (coll w) ∧
  log (snd (upsert_wallet l w)) =
    log w ++ [if bool_decide (addr ∉ keys (coll w))
              then LogInserted addr else LogUpdated addr] ∧
  NoDup (keys (coll (snd (upsert_wallet l w)))) ∧
  stored_for addr (coll (snd (upsert_wallet l w))) =
    [deref (heap (stamp l w)) l] ∧
  mongod (snd (upsert_wallet l w)) = mongod w.
Proof.
  intros Hnd Ha Hp Hacc.
  rewrite (upsert_wallet_unique l w addr Hnd Ha Hp Hacc). simpl.
  destruct (stamp_frame l w) as (_ & Hlog & _).
  split_and!; try done.
  - by rewrite Hlog.
  - by apply upsert_doc_unique.
  - apply stored_for_unique.
    + by apply upsert_doc_unique.
    + apply upsert_doc_elem.
    + apply index_key_address. by rewrite stamp_field.
  - apply stamp_mongod.
Qed.

Lemma batch_single_post l w addr :
  NoDup (keys (coll w)) →
  deref (heap w) l !! "wallet_address" = Some addr →
  plain addr →
  accepts (mongod w) addr (deref (heap (stamp l w)) l) (coll w) = true →
  fst (upsert_wallets_batch [l] w) =
    (if bool_decide (addr ∉ keys (coll w))
     then mkStats 1 0 0 else mkStats 0 1 0) ∧
  heap (snd (upsert_wallets_batch [l] w)) = heap (stamp l w) ∧
  NoDup (keys (coll (snd (upsert_wallets_batch [l] w)))) ∧
  stored_for addr (coll (snd (upsert_wallets_batch [l] w))) =
    [deref (heap (stamp l w)) l] ∧
  mongod (snd (upsert_wallets_batch [l] w)) = mongod w.
Proof.
  intros Hnd Ha Hp Hacc. unfold upsert_wallets_batch. simpl.
  rewrite (batch_step_unique l _ w addr Hnd Ha Hp Hacc).
  split_and!.
  - by destruct (bool_decide (addr ∉ keys (coll w))).
  - by destruct (bool_decide (addr ∉ keys (coll w))).
  - by apply upsert_doc_unique.
  - apply stored_for_unique.
    + by apply upsert_doc_unique.
    + apply upsert_doc_elem.
    + apply index_key_address. by rewrite stamp_field.
  - destruct (bool_decide (addr ∉ keys (coll w))); apply stamp_mongod.
Qed.

Lemma stored_for_key k c d : stored_for k c = [d] → k ∈ keys c.
Proof.
  intros H. assert (Hd : d ∈ stored_for k c) by (rewrite H; set_solver).
  unfold stored_for in Hd. apply list_elem_of_In, filter_In in Hd as [Hd Hk].
  apply bool_decide_eq_true in Hk. apply list_elem_of_fmap.
  exists d. split; [done | by apply list_elem_of_In].
Qed.

(** C4.  In a collection that obeys the unique index, take a record whose
    [wallet_address] is a string and that the database accepts.  Upserting
    it twice in a row succeeds both times and leaves exactly one stored
    document for that address, and the second upsert is reported as an
    update: [upsert_wallet] logs "Updated existing wallet",
    [upsert_wallets_batch] counts one update and no insertion. *)
Theorem upsert_twice_one_document (w : world) (l : loc) (a : string) :
  NoDup (keys (coll w)) →
  deref (heap w) l !! "wallet_address" = Some (PStr a) →
  (∀ c, accepts (mongod w) (PStr a) (deref (heap (stamp l w)) l) c = true) →
  let w1 := snd (upsert_wallet l w) in
  let w2 := snd (upsert_wallet l w1) in
  let v1 := snd (upsert_wallets_batch [l] w) in
  let v2 := snd (upsert_wallets_batch [l] v1) in
  (fst (upsert_wallet l w) = true ∧ fst (upsert_wallet l w1) = true ∧
   length (stored_for (PStr a) (coll w2)) = 1%nat ∧
   log w2 = log w1 ++ [LogUpdated (PStr a)]) ∧
  (length (stored_for (PStr a) (coll v2)) = 1%nat ∧
   fst (upsert_wallets_batch [l] v1) = mkStats 0 1 0).
Proof.
  intros Hnd Ha Hacc w1 w2 v1 v2. split.
  - destruct (upsert_wallet_post l w (PStr a) Hnd Ha (plain_string a) (Hacc _))
      as (Hr1 & Hh1 & Hc1 & Hl1 & Hnd1 & Hs1 & Hm1).
    fold w1 in Hh1, Hc1, Hl1, Hnd1, Hs1, Hm1.
    assert (Ha1 : deref (heap w1) l !! "wallet_address" = Some (PStr a)).
    { by rewrite Hh1, stamp_field. }
    assert (Hst : stamp l w1 = w1).
    { apply stamp_present. rewrite Hh1. apply stamp_stamped. }
    assert (Hacc1 : accepts (mongod w1) (PStr a) (deref (heap (stamp l w1)) l)
                      (coll w1) = true).
    { by rewrite Hst, Hm1, Hh1. }
    destruct (upsert_wallet_post l w1 (PStr a) Hnd1 Ha1 (plain_string a) Hacc1)
      as (Hr2 & Hh2 & Hc2 & Hl2 & Hnd2 & Hs2 & _).
    fold w2 in Hh2, Hc2, Hl2, Hnd2, Hs2.
    rewrite Hs2.
    split_and!; [exact Hr1 | exact Hr2 | reflexivity |].
    rewrite Hl2. rewrite bool_decide_eq_false_2; [reflexivity|].
    intros Hn. apply Hn. eapply stored_for_key, Hs1.
  - destruct (batch_single_post l w (PStr a) Hnd Ha (plain_string a) (Hacc _))
      as (_ & Hh1 & Hnd1 & Hs1 & Hm1).
    fold v1 in Hh1, Hnd1, Hs1, Hm1.
    assert (Ha1 : deref (heap v1) l !! "wallet_address" = Some (PStr a)).
    { by rewrite Hh1, stamp_field. }
    assert (Hst : stamp l v1 = v1).
    { apply stamp_present. rewrite Hh1. apply stamp_stamped. }
    assert (Hacc1 : accepts (mongod v1) (PStr a) (deref (heap (stamp l v1)) l)
                      (coll v1) = true).
    { by rewrite Hst, Hm1, Hh1. }
    destruct (batch_single_post l v1 (PStr a) Hnd1 Ha1 (plain_string a) Hacc1)
      as (Hr2 & Hh2 & Hnd2 & Hs2 & _).
    fold v2 in Hh2, Hnd2, Hs2.
    rewrite Hs2, Hr2.
    split; [reflexivity|].
    rewrite bool_decide_eq_false_2; [reflexivity|].
    intros Hn. apply Hn. eapply stored_for_key, Hs1.
Qed.

Lemma upsert_twice_one_document_witness :
  let w1 := snd (upsert_wallet 0%nat world_known) in
  let w2 := snd (upsert_wallet 0%nat w1) in
  length (stored_for (PStr "A") (coll w2)) = 1%nat ∧
  log w2 = log w1 ++ [LogUpdated (PStr "A")].
Proof.
  assert (Hnd : NoDup (keys (coll world_known))).
  { vm_compute. apply NoDup_singleton. }
  pose proof (upsert_twice_one_document world_known 0%nat "A" Hnd eq_refl
                (λ _, eq_refl))
    as [(_ & _ & H1 & H2) _].
  split; [exact H1 | exact H2].
Defined.

(** The two conditions on the record are needed.  A record the driver
    cannot encode is refused both times and nothing is stored for it; a
    record whose address is a set of operators takes the place of the
    document the operators select. *)
Lemma upsert_twice_refused :
  let w := mkWorld {[ 0%nat := <["buy" := PNum (Q2Qc (2 ^ 63))]> wallet_A ]}
             [] 10 0 [] sixty_four_bits in
  fst (upsert_wallet 0%nat w) = false ∧
  fst (upsert_wallet 0%nat (snd (upsert_wallet 0%nat w))) = false ∧
  coll (snd (upsert_wallet 0%nat (snd (upsert_wallet 0%nat w)))) = [].
Proof. cbv zeta. compute_done. Qed.

Lemma upsert_operator_address :
  let w := mkWorld {[ 0%nat := {[ "wallet_address" := PDict [("$gt", "")] ]} ]}
             [stale_A] 10 0 [] greater_than in
  fst (upsert_wallet 0%nat w) = true ∧
  stored_for (PStr "A") (coll (snd (upsert_wallet 0%nat w))) = [].
Proof. cbv zeta. compute_done. Qed.

(** ** What [upsert_wallet] tells its caller *)

(** C6, as the code has it.  [upsert_wallet] answers [True] when the record
    was written, whether it was inserted as a new document or took the place
    of an existing one, and [False] when it was not written; which of the two
    writes took place is only logged. *)
Theorem upsert_wallet_reports_success (l : loc) (w : world) :
  let d := deref (heap (stamp l w)) l in
  let r := fst (upsert_wallet l w) in
  let w' := snd (upsert_wallet l w) in
  (r = true ∧ ∃ addr, d !! "wallet_address" = Some addr ∧
     ((coll w' = coll w ++ [d] ∧ log w' = log w ++ [LogInserted addr]) ∨
      (length (coll w') = length (coll w) ∧ d ∈ coll w' ∧
       log w' = log w ++ [LogUpdated addr])))
  ∨ (r = false ∧ coll w' = coll w ∧ log w' = log w ++ [LogError]).
Proof.
  intros d r w'. subst r w'. unfold upsert_wallet. fold d.
  destruct (stamp_frame l w) as (Hc & Hl & _).
  destruct (d !! "wallet_address") as [addr|] eqn:Ha.
  - destruct (replace_one_frame addr d (stamp l w)) as (_ & _ & Hlog & _).
    destruct (replace_one_coll addr d (stamp l w))
      as [(Hr & Hco)|[(Hr & Hco & _)|(Hr & i & d0 & Hi & Hco & _)]];
      destruct (replace_one addr d (stamp l w)) as [res w2];
      simpl in Hr, Hco, Hlog; subst res; simpl.
    + right. by rewrite Hco, Hlog, Hc, Hl.
    + left. split; [done|]. exists addr. split; [done|]. left.
      by rewrite Hco, Hlog, Hc, Hl.
    + left. split; [done|]. exists addr. split; [done|]. right.
      rewrite Hco, Hlog, Hl. split_and!; [|set_solver|done].
      rewrite <- Hc. rewrite <- (take_drop_middle _ _ _ Hi) at 3.
      by rewrite !length_app.
  - right. simpl. by rewrite Hc, Hl.
Qed.

(** C6, as the specification words it, fails: the answer is the same for an
    insertion and for a replacement, so no caller can read from it which of
    the two took place. *)
Lemma upsert_wallet_answer_hides_outcome :
  fst (upsert_wallet 0%nat world_new) = true ∧
  fst (upsert_wallet 0%nat world_known) = true ∧
  log (snd (upsert_wallet 0%nat world_new)) = [LogInserted (PStr "A")] ∧
  log (snd (upsert_wallet 0%nat world_known)) = [LogUpdated (PStr "A")] ∧
  ∀ tell : bool → event,
    ¬ (tell (fst (upsert_wallet 0%nat world_new)) = LogInserted (PStr "A") ∧
       tell (fst (upsert_wallet 0%nat world_known)) = LogUpdated (PStr "A")).
Proof.
  assert (H1 : fst (upsert_wallet 0%nat world_new) = true) by compute_done.
  assert (H2 : fst (upsert_wallet 0%nat world_known) = true) by compute_done.
  split_and!; [done | done | compute_done | compute_done |].
  intros tell. rewrite H1, H2. intros [E1 E2]. congruence.
Qed.

(** ** The caller's record under an upsert *)

Lemma upsert_wallet_heap l w :
  heap (snd (upsert_wallet l w)) = heap (stamp l w) ∧
  clock (snd (upsert_wallet l w)) = clock (stamp l w).
Proof.
  unfold upsert_wallet.
  destruct (deref (heap (stamp l w)) l !! "wallet_address") as [addr|]; [|done].
  destruct (replace_one_frame addr (deref (heap (stamp l w)) l) (stamp l w))
    as (Hh & Hc & _).
  by destruct (replace_one _ _ _) as [[|] ?].
Qed.

Lemma batch_step_heap l s w :
  heap (snd (batch_step l s w)) = heap (stamp l w) ∧
  clock (snd (batch_step l s w)) = clock (stamp l w).
Proof.
  unfold batch_step.
  destruct (deref (heap (stamp l w)) l !! "wallet_address") as [addr|]; [|done].
  destruct (replace_one_frame addr (deref (heap (stamp l w)) l) (stamp l w))
    as (Hh & Hc & _).
  by destruct (replace_one _ _ _) as [[[]|] ?].
Qed.

Lemma stamp_keeps l0 l w :
  is_Some (deref (heap w) l !! "scrapeTimestamp") →
  deref (heap (stamp l0 w)) l = deref (heap w) l.
Proof.
  intros Hs. destruct (decide (l0 = l)) as [->|Hne].
  - by rewrite stamp_present.
  - by apply stamp_other.
Qed.

Lemma stamp_clock_absent l w :
  deref (heap w) l !! "scrapeTimestamp" = None →
  clock (stamp l w) = clock w + 1.
Proof. intros Hv. unfold stamp. by rewrite Hv. Qed.

Lemma batch_loop_cons l ls s w :
  batch_loop (l :: ls) s w =
    batch_loop ls (fst (batch_step l s w)) (snd (batch_step l s w)).
Proof. simpl. by destruct (batch_step l s w). Qed.

Lemma batch_loop_clock ls : ∀ s w, clock w ≤ clock (snd (batch_loop ls s w)).
Proof.
  induction ls as [|l0 ls IH]; intros s w; [done|].
  rewrite batch_loop_cons.
  etrans; [|apply IH].
  destruct (batch_step_heap l0 s w) as (_ & ->).
  apply stamp_frame.
Qed.

Lemma batch_loop_keeps ls : ∀ s w l,
  is_Some (deref (heap w) l !! "scrapeTimestamp") →
  deref (heap (snd (batch_loop ls s w))) l = deref (heap w) l.
Proof.
  induction ls as [|l0 ls IH]; intros s w l Hs; [done|].
  rewrite batch_loop_cons.
  destruct (batch_step_heap l0 s w) as (Hh & _).
  rewrite IH; rewrite Hh, stamp_keeps; done.
Qed.

Lemma batch_loop_untouched ls : ∀ s w l,
  l ∉ ls → deref (heap (snd (batch_loop ls s w))) l = deref (heap w) l.
Proof.
  induction ls as [|l0 ls IH]; intros s w l Hl; [done|].
  apply not_elem_of_cons in Hl as [Hne Hl].
  rewrite batch_loop_cons, IH by done.
  destruct (batch_step_heap l0 s w) as (-> & _).
  by apply stamp_other.
Qed.

Lemma batch_loop_stamps ls : ∀ s w l,
  l ∈ ls → deref (heap w) l !! "scrapeTimestamp" = None →
  ∃ t, clock w ≤ t < clock (snd (batch_loop ls s w)) ∧
    deref (heap (snd (batch_loop ls s w))) l =
      <["scrapeTimestamp" := PTime t]> (deref (heap w) l).
Proof.
  induction ls as [|l0 ls IH]; intros s w l Hl Hv.
  - by apply not_elem_of_nil in Hl.
  - rewrite batch_loop_cons.
    destruct (batch_step_heap l0 s w) as (Hh & Hc).
    pose proof (batch_loop_clock ls (fst (batch_step l0 s w))
                  (snd (batch_step l0 s w))) as Hmono.
    destruct (decide (l0 = l)) as [->|Hne].
    + exists (clock w). rewrite Hc, stamp_clock_absent in Hmono by done.
      split; [lia|].
      rewrite batch_loop_keeps; rewrite Hh, stamp_absent, deref_insert_eq by done;
        [done | by rewrite lookup_insert_eq].
    + apply elem_of_cons in Hl as [->|Hl]; [done|].
      destruct (IH (fst (batch_step l0 s w)) (snd (batch_step l0 s w)) l Hl)
        as (t & Ht & Hd).
      { by rewrite Hh, stamp_other. }
      exists t. rewrite Hd, Hh, stamp_other by done.
      split; [|done]. rewrite Hc in Ht.
      destruct (stamp_frame l0 w) as (_ & _ & _ & ?). lia.
Qed.

(** C10.  An upsert works on the caller's object.  A record without a
    [scrapeTimestamp] field carries one after [upsert_wallet] or
    [upsert_wallets_batch] has run, whether the write succeeds or not: the
    time read from the clock during the call, with every other field as
    before.  A record that has the field is left as it is. *)
Theorem upsert_stamps_in_place (w : world) (l : loc) (ls : list loc) :
  (deref (heap w) l !! "scrapeTimestamp" = None →
     deref (heap (snd (upsert_wallet l w))) l =
       <["scrapeTimestamp" := PTime (clock w)]> (deref (heap w) l) ∧
     (l ∈ ls → ∃ t, clock w ≤ t < clock (snd (upsert_wallets_batch ls w)) ∧
        deref (heap (snd (upsert_wallets_batch ls w))) l =
          <["scrapeTimestamp" := PTime t]> (deref (heap w) l))) ∧
  (is_Some (deref (heap w) l !! "scrapeTimestamp") →
     heap (snd (upsert_wallet l w)) = heap w ∧
     deref (heap (snd (upsert_wallets_batch ls w))) l = deref (heap w) l).
Proof.
  split.
  - intros Hv. split.
    + destruct (upsert_wallet_heap l w) as (-> & _).
      by rewrite stamp_absent, deref_insert_eq.
    + intros Hl. by apply batch_loop_stamps.
  - intros Hs. split.
    + destruct (upsert_wallet_heap l w) as (-> & _). by rewrite stamp_present.
    + by apply batch_loop_keeps.
Qed.

Lemma upsert_stamps_in_place_witness :
  deref (heap (snd (upsert_wallet 0%nat world_known))) 0%nat =
    <["scrapeTimestamp" := PTime 10]> wallet_A ∧
  heap (snd (upsert_wallet 0%nat (set_heap {[ 0%nat := stale_A ]} world_known))) =
    {[ 0%nat := stale_A ]}.
Proof.
  destruct (upsert_stamps_in_place world_known 0%nat [0%nat])
    as (Hnew & _).
  destruct (upsert_stamps_in_place (set_heap {[ 0%nat := stale_A ]} world_known)
              0%nat [0%nat]) as (_ & Hold).
  split.
  - apply Hnew. reflexivity.
  - apply Hold. vm_compute. by eexists.
Defined.

(** ** Accounting of a batch *)

Lemma batch_step_accounted l s w :
  accounted (fst (batch_step l s w)) = S (accounted s) ∧
  (errors s ≤ errors (fst (batch_step l s w)))%nat.
Proof.
  unfold batch_step, accounted.
  destruct (deref (heap (stamp l w)) l !! "wallet_address") as [addr|];
    [|simpl; lia].
  destruct (replace_one _ _ _) as [[[]|] ?]; simpl; lia.
Qed.

Lemma batch_step_missing l s w :
  deref (heap w) l !! "wallet_address" = None →
  batch_step l s w = (bump_errors s, add_log LogError (stamp l w)).
Proof. intros Ha. unfold batch_step. by rewrite stamp_field, Ha. Qed.



Lemma batch_loop_accounted ls : ∀ s w,
  accounted (fst (batch_loop ls s w)) = (accounted s + length ls)%nat ∧
  (errors s ≤ errors (fst (batch_loop ls s w)))%nat.
Proof.
  induction ls as [|l ls IH]; intros s w.
  - simpl. lia.
  - rewrite batch_loop_cons.
    destruct (IH (fst (batch_step l s w)) (snd (batch_step l s w))) as (-> & ?).
    destruct (batch_step_accounted l s w) as (-> & ?). simpl. lia.
Qed.

Lemma has_address_step l0 s w l :
  has_address (heap (snd (batch_step l0 s w))) l = has_address (heap w) l.
Proof.
  destruct (batch_step_heap l0 s w) as (-> & _).
  unfold has_address. by rewrite stamp_field.
Qed.




Lemma batch_of_three :
  fst (upsert_wallets_batch [0; 1; 0]%nat batch_world) = mkStats 1 1 1 ∧
  store_calls (snd (upsert_wallets_batch [0; 1; 0]%nat batch_world)) = 2%nat ∧
  length (coll (snd (upsert_wallets_batch [0; 1; 0]%nat batch_world))) = 1%nat.
Proof. compute_done. Qed.


(** ** The store invariant *)

Lemma upsert_wallet_inv (P : document → Prop) l w :
  by_address P →
  (is_Some (deref (heap w) l !! "wallet_address") → P (deref (heap w) l)) →
  NoDup (keys (coll w)) → Forall P (coll w) →
  NoDup (keys (coll (snd (upsert_wallet l w)))) ∧
  Forall P (coll (snd (upsert_wallet l w))).
Proof.
  intros HP Hl Hnd Hall. unfold upsert_wallet.
  destruct (stamp_frame l w) as (Hc & _).
  destruct (deref (heap (stamp l w)) l !! "wallet_address") as [addr|] eqn:Ha.
  - destruct (replace_one_inv P addr (deref (heap (stamp l w)) l) (stamp l w))
      as (Hnd' & Hall'); [|by rewrite Hc..|].
    + rewrite stamp_field in Ha by done.
      apply (HP (deref (heap w) l)); [by rewrite stamp_field|].
      apply Hl. by eexists.
    + by destruct (replace_one _ _ _) as [[|] ?].
  - simpl. by rewrite Hc.
Qed.

Lemma batch_step_inv (P : document → Prop) l s w :
  by_address P →
  (is_Some (deref (heap w) l !! "wallet_address") → P (deref (heap w) l)) →
  NoDup (keys (coll w)) → Forall P (coll w) →
  NoDup (keys (coll (snd (batch_step l s w)))) ∧
  Forall P (coll (snd (batch_step l s w))).
Proof.
  intros HP Hl Hnd Hall. unfold batch_step.
  destruct (stamp_frame l w) as (Hc & _).
  destruct (deref (heap (stamp l w)) l !! "wallet_address") as [addr|] eqn:Ha.
  - destruct (replace_one_inv P addr (deref (heap (stamp l w)) l) (stamp l w))
      as (Hnd' & Hall'); [|by rewrite Hc..|].
    + rewrite stamp_field in Ha by done.
      apply (HP (deref (heap w) l)); [by rewrite stamp_field|].
      apply Hl. by eexists.
    + by destruct (replace_one _ _ _) as [[[]|] ?].
  - simpl. by rewrite Hc.
Qed.

Lemma batch_loop_inv (P : document → Prop) ls : ∀ s w,
  by_address P →
  Forall (λ l, is_Some (deref (heap w) l !! "wallet_address") →
               P (deref (heap w) l)) ls →
  NoDup (keys (coll w)) → Forall P (coll w) →
  NoDup (keys (coll (snd (batch_loop ls s w)))) ∧
  Forall P (coll (snd (batch_loop ls s w))).
Proof.
  induction ls as [|l ls IH]; intros s w HP Hls Hnd Hall; [done|].
  apply Forall_cons in Hls as [Hl Hls].
  rewrite batch_loop_cons.
  destruct (batch_step_inv P l s w HP Hl Hnd Hall) as (Hnd1 & Hall1).
  apply IH; [done| |done..].
  destruct (batch_step_heap l s w) as (Hh & _).
  eapply Forall_impl; [exact Hls|]. intros l1 Hl1. simpl in *.
  rewrite Hh, stamp_field by done. intros Hs.
  apply (HP (deref (heap w) l1)); [by rewrite stamp_field | by apply Hl1].
Qed.

Lemma has_field_by_address :
  by_address (λ d, is_Some (d !! "wallet_address")).
Proof. intros d d' E. by rewrite E. Qed.

Lemma valid_bool_by_address (d d' : document) :
  d !! "wallet_address" = d' !! "wallet_address" →
  _validate_wallet_data d = _validate_wallet_data d'.
Proof.
  intros E. unfold _validate_wallet_data, required_fields. simpl.
  by rewrite E.
Qed.

Lemma valid_by_address :
  by_address (λ d, _validate_wallet_data d = true).
Proof. intros d d' E. by rewrite (valid_bool_by_address d d' E). Qed.

(** C2, as the code has it.  In every state the gateway can reach from the
    empty collection, no two stored documents have the same
    [wallet_address], so each stored document is the only one for its
    address, and every stored document has a [wallet_address] field.  The
    field is moreover non-empty when every record handed to the gateway
    passed [_validate_wallet_data]; the gateway itself does not check it. *)
Theorem reachable_store_invariant (validated : bool) (w : world) :
  reachable validated w →
  NoDup (keys (coll w)) ∧
  (∀ d, d ∈ coll w → stored_for (index_key d) (coll w) = [d]) ∧
  Forall (λ d, is_Some (d !! "wallet_address")) (coll w) ∧
  (validated = true → Forall (λ d, _validate_wallet_data d = true) (coll w)).
Proof.
  intros Hr.
  assert (H : NoDup (keys (coll w)) ∧
    Forall (λ d, is_Some (d !! "wallet_address")) (coll w) ∧
    (validated = true → Forall (λ d, _validate_wallet_data d = true) (coll w))).
  { induction Hr as [w Hc|w l Hr (Hnd & Hf & Hv) Hl|w ls Hr (Hnd & Hf & Hv) Hls
                    |w h t Hr IH].
    - rewrite Hc. split_and!; [constructor|constructor|by constructor].
    - split_and!.
      + by apply (upsert_wallet_inv _ l w has_field_by_address).
      + by apply (upsert_wallet_inv _ l w has_field_by_address).
      + intros Hval.
        apply (upsert_wallet_inv _ l w valid_by_address); auto.
    - unfold upsert_wallets_batch. split_and!.
      + apply (batch_loop_inv _ ls _ w has_field_by_address); [|done..].
        by apply Forall_forall.
      + apply (batch_loop_inv _ ls _ w has_field_by_address); [|done..].
        by apply Forall_forall.
      + intros Hval.
        apply (batch_loop_inv _ ls _ w valid_by_address); auto.
        eapply Forall_impl; [exact Hls|]. intros l Hl _. by apply Hl.
    - exact IH. }
  destruct H as (Hnd & Hf & Hv). split_and!; [done| |done|done].
  intros d Hd. by apply stored_for_unique.
Qed.

Lemma reachable_store_invariant_witness :
  NoDup (keys (coll (snd (upsert_wallets_batch [0; 0]%nat batch_world)))) ∧
  Forall (λ d, _validate_wallet_data d = true)
    (coll (snd (upsert_wallets_batch [0; 0]%nat batch_world))).
Proof.
  assert (Hr : reachable true (snd (upsert_wallets_batch [0; 0]%nat batch_world))).
  { apply reach_batch; [by apply reach_empty|].
    repeat constructor. }
  destruct (reachable_store_invariant true _ Hr) as (Hnd & _ & _ & Hv).
  split; [exact Hnd | by apply Hv].
Defined.

(** C2, as the specification words it, fails: the gateway stores a record
    whose [wallet_address] is the empty string, or [None]. *)
Lemma upsert_stores_empty_address :
  let w := snd (upsert_wallets_batch [0; 1]%nat nameless_world) in
  reachable false w ∧
  fst (upsert_wallets_batch [0; 1]%nat nameless_world) = mkStats 2 0 0 ∧
  coll w = [ {[ "wallet_address" := PStr ""; "scrapeTimestamp" := PTime 10 ]};
             {[ "wallet_address" := PNone; "scrapeTimestamp" := PTime 11 ]} ] ∧
  Forall (λ d, _validate_wallet_data d = false) (coll w).
Proof.
  split_and!.
  - apply reach_batch; [by apply reach_empty|].
    apply Forall_forall. intros l _ [=].
  - compute_done.
  - compute_done.
  - compute_done.
Qed.

(** ** Enrichment *)

Lemma enrich_wallet_data_heap raw w :
  heap (snd (enrich_wallet_data raw w)) =
    <[fresh (dom (heap w)) :=
        <["scrapeTimestamp" := PTime (clock w)]> (deref (heap w) raw)]> (heap w) ∧
  coll (snd (enrich_wallet_data raw w)) = coll w ∧
  store_calls (snd (enrich_wallet_data raw w)) = store_calls w ∧
  log (snd (enrich_wallet_data raw w)) = log w.
Proof.
  unfold enrich_wallet_data. simpl.
  rewrite !deref_insert_eq, insert_insert_eq.
  by destruct (_validate_wallet_data _).
Qed.

Lemma enrich_wallet_data_result raw w :
  fst (enrich_wallet_data raw w) =
    if _validate_wallet_data (deref (heap w) raw)
    then Some (fresh (dom (heap w))) else None.
Proof.
  unfold enrich_wallet_data. simpl.
  rewrite !deref_insert_eq.
  rewrite <- (valid_bool_by_address (deref (heap w) raw)
                (<["scrapeTimestamp" := PTime (clock w)]> (deref (heap w) raw)))
    by by rewrite lookup_insert_ne.
  by destruct (_validate_wallet_data _).
Qed.

Lemma fresh_loc_unused (h : gmap loc document) : h !! fresh (dom h) = None.
Proof. apply not_elem_of_dom, is_fresh. Qed.

(** C9.  [enrich_wallet_data] works on a copy.  Every object of the heap,
    the caller's record among them, is after the call what it was before,
    whether the call returns the enriched copy or [None]; a record without
    [scrapeTimestamp] still has none.  The copy is a new object: the record
    with the time stamp added. *)
Theorem enrich_leaves_input (raw : loc) (w : world) (d : document) :
  heap w !! raw = Some d →
  let w' := snd (enrich_wallet_data raw w) in
  heap w' !! raw = Some d ∧
  (d !! "scrapeTimestamp" = None →
     deref (heap w') raw !! "scrapeTimestamp" = None) ∧
  heap w ⊆ heap w' ∧
  (∀ enriched, fst (enrich_wallet_data raw w) = Some enriched →
     enriched ≠ raw ∧ heap w !! enriched = None ∧
     heap w' !! enriched = Some (<["scrapeTimestamp" := PTime (clock w)]> d)).
Proof.
  intros Hd w'. subst w'.
  destruct (enrich_wallet_data_heap raw w) as (Hh & _).
  pose proof (fresh_loc_unused (heap w)) as Hfresh.
  assert (Hne : fresh (dom (heap w)) ≠ raw) by congruence.
  rewrite Hh. split_and!.
  - by rewrite lookup_insert_ne.
  - intros Hts. unfold deref. by rewrite lookup_insert_ne, Hd.
  - by apply insert_subseteq.
  - intros e He. rewrite enrich_wallet_data_result in He.
    destruct (_validate_wallet_data _); [|done]. injection He as <-.
    split_and!; [done..|].
    rewrite lookup_insert_eq. unfold deref. by rewrite Hd.
Qed.

Lemma enrich_leaves_input_witness :
  heap (snd (enrich_wallet_data 0%nat world_new)) !! 0%nat = Some wallet_A ∧
  heap (snd (enrich_wallet_data 1%nat batch_world)) !! 1%nat =
    Some {[ "winrate_7d" := PNum (ratio 9 10) ]} ∧
  fst (enrich_wallet_data 1%nat batch_world) = None.
Proof.
  split_and!.
  - apply (enrich_leaves_input 0%nat world_new wallet_A). reflexivity.
  - apply (enrich_leaves_input 1%nat batch_world). reflexivity.
  - reflexivity.
Defined.

(** ** The pipeline *)

Lemma list_case_nonempty {A B : Type} (l : list A) (a b : B) :
  l ≠ [] → match l with [] => a | _ :: _ => b end = b.
Proof. by destruct l. Qed.

Lemma enrich_loop_frame ws : ∀ acc w,
  coll (snd (enrich_loop ws acc w)) = coll w ∧
  store_calls (snd (enrich_loop ws acc w)) = store_calls w.
Proof.
  induction ws as [|l ws IH]; intros acc w; [done|]. simpl.
  destruct (enrich_wallet_data_heap l w) as (_ & Hc & Hn & _).
  destruct (enrich_wallet_data l w) as [o w1]. simpl in Hc, Hn.
  destruct (dict_truthy (heap w1) o).
  - destruct (IH (acc ++ option_list o) w1) as (-> & ->). done.
  - destruct (IH acc w1) as (-> & ->). done.
Qed.

(** C3.  The answer of [run_scrape], stage by stage.  Nothing fetched: the
    run fails and the collection is not called.  Something fetched and
    nothing left by the winrate filter: the run succeeds and the collection
    is not called.  Something left by the filter and nothing by enrichment:
    the run fails.  Otherwise the enriched records go to
    [upsert_wallets_batch] and the run succeeds exactly when its [errors]
    count is zero. *)
Theorem run_scrape_outcome (min_winrate : Qc) (raw : list loc) (w : world) :
  let w0 := snd (utcnow w) in
  let filtered := filter_wallets min_winrate raw w0 in
  let enriched := fst (enrich_wallets filtered w0) in
  let w1 := snd (enrich_wallets filtered w0) in
  let storage_stats := fst (upsert_wallets_batch enriched w1) in
  let out := run_scrape min_winrate raw w in
  (raw = [] →
     fst out = false ∧
     store_calls (snd out) = store_calls w ∧ coll (snd out) = coll w) ∧
  (raw ≠ [] → filtered = [] →
     fst out = true ∧
     store_calls (snd out) = store_calls w ∧ coll (snd out) = coll w) ∧
  (filtered ≠ [] → enriched = [] →
     fst out = false ∧
     store_calls (snd out) = store_calls w ∧ coll (snd out) = coll w) ∧
  (filtered ≠ [] → enriched ≠ [] →
     fst out = bool_decide (errors storage_stats = 0%nat)).
Proof.
  intros w0 filtered enriched w1 storage_stats out.
  assert (Hout : out =
    match raw with
    | [] => (false, w0)
    | _ :: _ =>
        match filtered with
        | [] => (true, w0)
        | _ :: _ =>
            match enriched with
            | [] => (false, w1)
            | _ :: _ =>
                (bool_decide (errors storage_stats = 0%nat),
                 snd (utcnow (snd (upsert_wallets_batch enriched w1))))
            end
        end
    end).
  { subst out storage_stats enriched w1 filtered. unfold run_scrape.
    change (utcnow w) with (PTime (clock w), w0). cbv iota beta.
    destruct raw as [|r raw]; [done|].
    destruct (filter_wallets min_winrate (r :: raw) w0) as [|f fs]; [done|].
    destruct (enrich_wallets (f :: fs) w0) as [[|e es] w2]; [done|].
    cbn [fst snd]. unfold store_wallets.
    destruct (upsert_wallets_batch (e :: es) w2) as [st w3]. done. }
  destruct (enrich_loop_frame filtered [] w0) as (Hc & Hn).
  fold (enrich_wallets filtered w0) in Hc, Hn. fold w1 in Hc, Hn.
  rewrite Hout. clear Hout out.
  split_and!.
  - intros E. by rewrite E.
  - intros Hraw Hf. destruct raw as [|r raw]; [done|]. by rewrite Hf.
  - intros Hf He. destruct raw as [|r raw]; [exfalso; by apply Hf|].
    rewrite (list_case_nonempty filtered) by done. rewrite He.
    cbn [fst snd]. by rewrite Hc, Hn.
  - intros Hf He. destruct raw as [|r raw]; [exfalso; by apply Hf|].
    rewrite (list_case_nonempty filtered), (list_case_nonempty enriched) by done.
    done.
Qed.

Lemma scenario_run :
  let w0 := snd (utcnow scenario_world) in
  let filtered := filter_wallets (ratio 1 2) [0; 1]%nat w0 in
  let enriched := enrich_wallets filtered w0 in
  filtered = [0%nat] ∧
  fst (upsert_wallets_batch (fst enriched) (snd enriched)) = mkStats 1 0 0 ∧
  fst (run_scrape (ratio 1 2) [0; 1]%nat scenario_world) = true ∧
  coll (snd (run_scrape (ratio 1 2) [0; 1]%nat scenario_world)) =
    [ <["scrapeTimestamp" := PTime 11]> wallet_A ].
Proof. cbv zeta. compute_done. Qed.

(** A database that refuses the write makes the run fail: here the record
    for ["A"] holds a number the driver cannot encode. *)
Lemma refused_run :
  let w := mkWorld {[ 0%nat := <["buy" := PNum (Q2Qc (2 ^ 63))]> wallet_A;
                      1%nat := wallet_B ]} [] 10 0 [] sixty_four_bits in
  fst (run_scrape (ratio 1 2) [0; 1]%nat w) = false ∧
  store_calls (snd (run_scrape (ratio 1 2) [0; 1]%nat w)) = 1%nat ∧
  coll (snd (run_scrape (ratio 1 2) [0; 1]%nat w)) = [].
Proof. cbv zeta. compute_done. Qed.

Lemma run_scrape_outcome_witness :
  fst (run_scrape (ratio 1 2) [] scenario_world) = false ∧
  (fst (run_scrape (ratio 1 2) [1%nat] scenario_world) = true ∧
   store_calls (snd (run_scrape (ratio 1 2) [1%nat] scenario_world)) = 0%nat) ∧
  fst (run_scrape (ratio 1 2) [1%nat] batch_world) = false ∧
  fst (run_scrape (ratio 1 2) [0; 1]%nat scenario_world) = true.
Proof.
  destruct (run_scrape_outcome (ratio 1 2) [] scenario_world)
    as (Hnone & _).
  destruct (run_scrape_outcome (ratio 1 2) [1%nat] scenario_world)
    as (_ & Hlow & _).
  destruct (run_scrape_outcome (ratio 1 2) [1%nat] batch_world)
    as (_ & _ & Hbroken & _).
  destruct (run_scrape_outcome (ratio 1 2) [0; 1]%nat scenario_world)
    as (_ & _ & _ & Hstore).
  split_and!.
  - by apply Hnone.
  - by apply Hlow.
  - by apply Hlow.
  - apply Hbroken; compute_done.
  - rewrite Hstore; compute_done.
Defined.

(** ** Queries *)

Lemma string_compare_trans_le s1 : ∀ s2 s3,
  String.compare s1 s2 ≠ Gt → String.compare s2 s3 ≠ Gt →
  String.compare s1 s3 ≠ Gt.
Proof.
  induction s1 as [|a s1 IH]; intros [|b s2] [|c s3]; simpl; try done.
  unfold Ascii.compare.
  destruct (N.compare_spec (Ascii.N_of_ascii a) (Ascii.N_of_ascii b)) as [E1|L1|G1];
    destruct (N.compare_spec (Ascii.N_of_ascii b) (Ascii.N_of_ascii c)) as [E2|L2|G2];
    try done.
  - rewrite E1, E2, N.compare_refl. apply IH.
  - rewrite E1. by rewrite (proj2 (N.compare_lt_iff _ _) L2).
  - rewrite <- E2. by rewrite (proj2 (N.compare_lt_iff _ _) L1).
  - assert (L : (Ascii.N_of_ascii a < Ascii.N_of_ascii c)%N) by lia.
    by rewrite (proj2 (N.compare_lt_iff _ _) L).
Qed.

Lemma string_leb_trans s1 s2 s3 :
  String.leb s1 s2 = true → String.leb s2 s3 = true → String.leb s1 s3 = true.
Proof.
  unfold String.leb. intros H1 H2.
  pose proof (string_compare_trans_le s1 s2 s3) as H.
  destruct (String.compare s1 s2), (String.compare s2 s3),
    (String.compare s1 s3); try done; exfalso; by apply H.
Qed.

#[global] Instance bson_le_total : Total bson_le.
Proof.
  intros [|x|x|x|x|x] [|y|y|y|y|y]; simpl; try lia.
  - destruct x, y; simpl; auto.
  - apply (total Qcle).
  - apply String.leb_total.
Qed.

#[global] Instance bson_le_trans : Transitive bson_le.
Proof.
  intros [|x|x|x|x|x] [|y|y|y|y|y] [|z|z|z|z|z]; simpl; try lia.
  - destruct x, y, z; simpl; auto.
  - apply Qcle_trans.
  - apply string_leb_trans.
Qed.

#[global] Instance before_desc_total field : Total (before_desc field).
Proof. intros d1 d2. unfold before_desc. destruct (total bson_le (sort_key field d1) (sort_key field d2)); auto. Qed.

#[global] Instance before_desc_trans field : Transitive (before_desc field).
Proof. intros d1 d2 d3 H1 H2. unfold before_desc in *. by etrans. Qed.

(** The filter document [get_wallets] builds selects the wanted documents. *)
Lemma get_wallets_unlimited min_winrate start_date end_date w :
  get_wallets min_winrate None start_date end_date w =
    sort_desc "scrapeTimestamp"
      (List.filter (wanted min_winrate start_date end_date) (coll w)).
Proof.
  unfold get_wallets, find. f_equal. apply List.filter_ext. intros d.
  unfold wanted, winrate_reaches, scraped_from, scraped_until, selects.
  destruct min_winrate as [m|], start_date as [s|], end_date as [e|]; simpl.
  all: repeat match goal with
    | |- context [bool_decide (is_Some ?a ∨ is_Some ?b)] =>
        first [ rewrite (bool_decide_eq_true_2 (is_Some a ∨ is_Some b))
                  by (first [left; by eexists | right; by eexists])
              | rewrite (bool_decide_eq_false_2 (is_Some a ∨ is_Some b))
                  by (intros [[? [=]]|[? [=]]]) ]
    end; simpl.
  all: destruct (d !! "winrate_7d") as [[]|]; simpl.
  all: destruct (d !! "scrapeTimestamp") as [[]|]; simpl.
  all: rewrite ?andb_true_r, ?andb_false_r, ?andb_assoc; done.
Qed.

Lemma get_wallets_limited min_winrate limit start_date end_date w :
  get_wallets min_winrate limit start_date end_date w =
    match limit with
    | Some n =>
        if bool_decide (n ≠ 0)
        then if bool_decide (Z.abs n < 2 ^ 63)
             then take (Z.abs_nat n)
                    (get_wallets min_winrate None start_date end_date w)
             else []
        else get_wallets min_winrate None start_date end_date w
    | None => get_wallets min_winrate None start_date end_date w
    end.
Proof.
  unfold get_wallets, cursor_limit. destruct limit as [n|]; [|done].
  by repeat case_bool_decide.
Qed.

(** A limit can only leave documents out. *)
Lemma get_wallets_cut min_winrate limit start_date end_date w :
  get_wallets min_winrate limit start_date end_date w `sublist_of`
  get_wallets min_winrate None start_date end_date w.
Proof.
  rewrite get_wallets_limited. destruct limit as [n|]; [|done].
  repeat case_bool_decide; [apply sublist_take | apply sublist_nil_l | done].
Qed.

(** A limit within the range the API allows. *)
Lemma get_wallets_in_range min_winrate n start_date end_date w :
  1 ≤ n ≤ 1000 →
  get_wallets min_winrate (Some n) start_date end_date w =
    take (Z.to_nat n) (get_wallets min_winrate None start_date end_date w).
Proof.
  intros Hn. rewrite get_wallets_limited.
  rewrite !bool_decide_eq_true_2 by lia.
  by rewrite Zabs2Nat.abs_nat_nonneg by lia.
Qed.

Lemma get_wallets_unlimited_perm min_winrate start_date end_date w :
  get_wallets min_winrate None start_date end_date w ≡ₚ
    List.filter (wanted min_winrate start_date end_date) (coll w).
Proof. rewrite get_wallets_unlimited. apply merge_sort_Permutation. Qed.

Lemma get_wallets_unlimited_elem min_winrate start_date end_date w d :
  d ∈ get_wallets min_winrate None start_date end_date w ↔
  d ∈ coll w ∧ wanted min_winrate start_date end_date d = true.
Proof.
  rewrite get_wallets_unlimited_perm. split.
  - intros Hd. apply list_elem_of_In, filter_In in Hd as [Hd Hw].
    by apply list_elem_of_In in Hd.
  - intros [Hd Hw]. apply list_elem_of_In, filter_In.
    by apply list_elem_of_In in Hd.
Qed.

Lemma StronglySorted_take {A : Type} (R : relation A) (n : nat) (l : list A) :
  StronglySorted R l → StronglySorted R (take n l).
Proof.
  intros Hs. rewrite <- (take_drop n l) in Hs.
  by apply StronglySorted_app_1_l in Hs.
Qed.

(** C7.  For a [limit] that is not given or lies in the valid range
    [1..1000], [get_wallets] returns the beginning of a list that holds
    exactly the documents of the collection with [winrate_7d >= min_winrate]
    and [scrapeTimestamp] within [[start_date, end_date]], both bounds
    included, each constraint dropped when its parameter is [None], sorted by
    [scrapeTimestamp], latest first: the whole list when [limit] is [None],
    its first [limit] documents otherwise.  So every document returned is a
    wanted one, the result is sorted, its length is [limit] or the number of
    wanted documents if that is smaller, and with no filter and no limit all
    documents are returned.  Which of several documents with the same
    [scrapeTimestamp] comes first is not said. *)
Theorem get_wallets_result (min_winrate : option Qc) (limit : option Z)
    (start_date end_date : option Z) (w : world) :
  (∀ n, limit = Some n → 1 ≤ n ≤ 1000) →
  let result := get_wallets min_winrate limit start_date end_date w in
  let matching := List.filter (wanted min_winrate start_date end_date) (coll w) in
  (∃ sorted,
     sorted ≡ₚ matching ∧
     StronglySorted (before_desc "scrapeTimestamp") sorted ∧
     result = match limit with
              | Some n => take (Z.to_nat n) sorted
              | None => sorted
              end) ∧
  (∀ d, d ∈ result →
        d ∈ coll w ∧ wanted min_winrate start_date end_date d = true) ∧
  StronglySorted (before_desc "scrapeTimestamp") result ∧
  (∀ n, limit = Some n →
     length result = Nat.min (Z.to_nat n) (length matching)) ∧
  (limit = None → result ≡ₚ matching) ∧
  (min_winrate = None → start_date = None → end_date = None → limit = None →
     result ≡ₚ coll w).
Proof.
  intros Hlim result matching.
  set (all := get_wallets min_winrate None start_date end_date w).
  assert (Hperm : all ≡ₚ matching) by apply get_wallets_unlimited_perm.
  assert (Hsorted : StronglySorted (before_desc "scrapeTimestamp") all).
  { subst all. rewrite get_wallets_unlimited.
    apply StronglySorted_merge_sort; apply _. }
  assert (Hres : result = match limit with
                          | Some n => take (Z.to_nat n) all
                          | None => all
                          end).
  { subst result all. destruct limit as [n|]; [|done].
    apply get_wallets_in_range. by apply Hlim. }
  split_and!.
  - by exists all.
  - intros d Hd. apply get_wallets_unlimited_elem.
    eapply sublist_subseteq; [apply get_wallets_cut | exact Hd].
  - rewrite Hres. destruct limit; [by apply StronglySorted_take | done].
  - intros n ->. by rewrite Hres, length_take, Hperm.
  - intros ->. by rewrite Hres.
  - intros -> -> -> ->. rewrite Hres, Hperm. subst matching.
    rewrite (List.filter_ext _ (λ _, true)) by done.
    by rewrite List.filter_true.
Qed.

Lemma get_wallets_result_witness :
  length (get_wallets (Some (ratio 1 10)) (Some 1) (Some 1) (Some 2) query_world)
    = 1%nat ∧
  get_wallets None None None None query_world ≡ₚ [stored_A; stored_B].
Proof.
  destruct (get_wallets_result (Some (ratio 1 10)) (Some 1) (Some 1) (Some 2)
              query_world) as (_ & _ & _ & Hcut & _).
  { intros n [= <-]. lia. }
  destruct (get_wallets_result None None None None query_world)
    as (_ & _ & _ & _ & _ & Hall).
  { intros n [=]. }
  split.
  - rewrite (Hcut 1 eq_refl). compute_done.
  - by apply Hall.
Defined.

(** Outside that range the limit is read differently: [0] is no limit at
    all, and a limit the driver cannot encode gives the empty list. *)
Lemma get_wallets_limit_out_of_range :
  get_wallets None (Some 0) None None query_world = [stored_B; stored_A] ∧
  get_wallets None (Some (2 ^ 63)) None None query_world = [].
Proof. split; compute_done. Qed.

(** C8, as the code has it.  Raising [min_winrate] can only remove documents
    from the result of [get_wallets], the other parameters being the same, as
    long as the limit does not cut the result for the lower threshold:
    [limit] is [None] or [0], or it is no smaller than the number of
    documents the lower threshold selects. *)
Theorem get_wallets_monotone (X Y : Qc) (limit : option Z)
    (start_date end_date : option Z) (w : world) :
  (Y ≤ X)%Qc →
  (limit = None ∨ limit = Some 0 ∨
   ∃ n, limit = Some n ∧
     (length (get_wallets (Some Y) None start_date end_date w) ≤ Z.abs_nat n)%nat) →
  ∀ d, d ∈ get_wallets (Some X) limit start_date end_date w →
       d ∈ get_wallets (Some Y) limit start_date end_date w.
Proof.
  intros HYX Hlim d Hd.
  assert (HX : d ∈ get_wallets (Some X) None start_date end_date w).
  { eapply sublist_subseteq; [apply get_wallets_cut | exact Hd]. }
  assert (HY : d ∈ get_wallets (Some Y) None start_date end_date w).
  { apply get_wallets_unlimited_elem.
    apply get_wallets_unlimited_elem in HX as [Hin Hw]. split; [done|].
    unfold wanted, winrate_reaches in *.
    destruct (d !! "winrate_7d") as [[]|]; try done.
    apply andb_true_iff in Hw as [Hw Hw3]. apply andb_true_iff in Hw as [Hw1 Hw2].
    rewrite Hw2, Hw3, !andb_true_r.
    apply bool_decide_eq_true. apply bool_decide_eq_true in Hw1.
    by etrans. }
  destruct Hlim as [->|[->|(n & -> & Hn)]]; [done| |].
  - rewrite get_wallets_limited. by rewrite bool_decide_eq_false_2 by lia.
  - rewrite get_wallets_limited in Hd. rewrite get_wallets_limited.
    case_bool_decide; [|done]. case_bool_decide; [|done]. by rewrite take_ge.
Qed.

Lemma get_wallets_monotone_witness :
  stored_A ∈ get_wallets (Some (ratio 1 5)) (Some 2) None None query_world.
Proof.
  apply (get_wallets_monotone (ratio 1 2) (ratio 1 5) (Some 2) None None query_world).
  - compute_done.
  - right; right. exists 2. split; [reflexivity|]. compute_done.
  - compute_done.
Defined.

(** C8, as the specification words it, fails under a limit: with room for
    one document, the higher threshold returns ["A"] and the lower one the
    more recent ["B"]. *)
Lemma get_wallets_limit_breaks_monotony :
  (ratio 1 5 ≤ ratio 1 2)%Qc ∧
  get_wallets (Some (ratio 1 2)) (Some 1) None None query_world = [stored_A] ∧
  get_wallets (Some (ratio 1 5)) (Some 1) None None query_world = [stored_B] ∧
  ¬ (∀ d, d ∈ get_wallets (Some (ratio 1 2)) (Some 1) None None query_world →
          d ∈ get_wallets (Some (ratio 1 5)) (Some 1) None None query_world).
Proof.
  assert (H1 : get_wallets (Some (ratio 1 2)) (Some 1) None None query_world
               = [stored_A]) by compute_done.
  assert (H2 : get_wallets (Some (ratio 1 5)) (Some 1) None None query_world
               = [stored_B]) by compute_done.
  assert (Hne : stored_A ≠ stored_B) by compute_done.
  split_and!; [compute_done | done | done |].
  rewrite H1, H2. intros H.
  specialize (H stored_A). rewrite !list_elem_of_singleton in H.
  by specialize (H eq_refl).
Qed.

(** * Further properties *)

(** ** The winrate filter as a list operation *)

#[global] Instance winrate_comparable_dec d : Decision (winrate_comparable d).
Proof.
  unfold winrate_comparable.
  destruct (d !! "winrate_7d") as [[]|]; apply _.
Defined.

Lemma passes_incomparable d m : ¬ winrate_comparable d → passes d m = Raise.
Proof.
  unfold winrate_comparable, passes, winrate_of.
  destruct (d !! "winrate_7d") as [[]|]; simpl; try done;
    intros H; exfalso; apply H; by eexists.
Qed.

Lemma filter_loop_raises h m ws : ∀ acc,
  Exists (λ l, ¬ winrate_comparable (deref h l)) ws →
  filter_loop h ws m acc = Raise.
Proof.
  induction ws as [|l ws IH]; intros acc Hex.
  - by apply Exists_nil in Hex.
  - simpl. destruct (decide (winrate_comparable (deref h l))) as [Hc|Hc].
    + rewrite (passes_comparable _ m Hc).
      apply Exists_cons in Hex as [Hl|Hex]; [done|].
      destruct (at_least m (winrate_of (deref h l))); by apply IH.
    + by rewrite passes_incomparable.
Qed.

Lemma filter_by_winrate_comparable h ws m :
  Forall (λ l, winrate_comparable (deref h l)) ws →
  filter_by_winrate h ws m =
    List.filter (λ l, at_least m (winrate_of (deref h l))) ws.
Proof. intros Hall. unfold filter_by_winrate. by rewrite filter_loop_complete. Qed.

(** X1.  One record whose [winrate_7d] is neither [None] nor a number (a
    string, a date, a nested document) makes [filter_by_winrate] return the
    empty list: the [TypeError] of the comparison is caught around the whole
    loop, so the records that would have passed are lost with it. *)
Theorem filter_by_winrate_type_error (h : gmap loc document) (ws : list loc) (m : Qc) :
  Exists (λ l, ¬ winrate_comparable (deref h l)) ws →
  filter_by_winrate h ws m = [].
Proof.
  intros Hex. unfold filter_by_winrate. by rewrite filter_loop_raises.
Qed.

Lemma filter_by_winrate_type_error_witness :
  filter_by_winrate
    (<[ 3%nat := {[ "wallet_address" := PStr "D"; "winrate_7d" := PStr "0.9" ]} ]>
       sample_heap) [0; 3]%nat 0%Qc = [].
Proof.
  apply filter_by_winrate_type_error.
  apply Exists_cons_tl, Exists_cons_hd. intros H. vm_compute in H.
  by destruct H.
Defined.

Lemma list_filter_idem {A : Type} (f : A → bool) (l : list A) :
  List.filter f (List.filter f l) = List.filter f l.
Proof.
  induction l as [|a l IH]; simpl; [done|].
  destruct (f a) eqn:E; simpl; rewrite ?E, IH; done.
Qed.

Lemma at_least_antitone m m' v :
  (m ≤ m')%Qc → at_least m' v = true → at_least m v = true.
Proof.
  unfold at_least. destruct (numeric v) as [q|]; [|done].
  rewrite !bool_decide_eq_true. intros. by etrans.
Qed.

(** X2.  [filter_by_winrate] selects without reordering or adding: its result
    is a sublist of its input.  Filtering the result again with the same
    threshold changes nothing, and raising the threshold can only remove
    records. *)
Theorem filter_by_winrate_sublist (h : gmap loc document) (ws : list loc)
    (m m' : Qc) :
  filter_by_winrate h ws m `sublist_of` ws ∧
  filter_by_winrate h (filter_by_winrate h ws m) m = filter_by_winrate h ws m ∧
  ((m ≤ m')%Qc → filter_by_winrate h ws m' ⊆ filter_by_winrate h ws m).
Proof.
  destruct (decide (Forall (λ l, winrate_comparable (deref h l)) ws)) as [Hall|Hex].
  - rewrite !(filter_by_winrate_comparable h ws) by done.
    assert (Hsub : List.filter (λ l, at_least m (winrate_of (deref h l))) ws
                   `sublist_of` ws).
    { clear Hall. induction ws as [|l ws IH]; simpl; [done|].
      destruct (at_least m _); by constructor. }
    split_and!.
    + done.
    + rewrite filter_by_winrate_comparable.
      * apply list_filter_idem.
      * apply Forall_forall. intros l Hl.
        rewrite Forall_forall in Hall. apply Hall.
        apply list_elem_of_In, filter_In in Hl as [Hl _].
        by apply list_elem_of_In.
    + intros Hm l Hl. apply list_elem_of_In, filter_In in Hl as [Hl Hk].
      apply list_elem_of_In, filter_In. split; [done|].
      by eapply at_least_antitone.
  - apply not_Forall_Exists in Hex; [|apply _].
    assert (Hempty : ∀ t, filter_by_winrate h ws t = []).
    { intros t. unfold filter_by_winrate. by rewrite filter_loop_raises. }
    rewrite !Hempty.
    split_and!; [apply sublist_nil_l | done | done].
Qed.

Lemma filter_by_winrate_sublist_witness :
  filter_by_winrate sample_heap [0; 1; 2]%nat (ratio 1 2) ⊆
  filter_by_winrate sample_heap [0; 1; 2]%nat 0%Qc.
Proof.
  apply (filter_by_winrate_sublist sample_heap [0; 1; 2]%nat 0%Qc (ratio 1 2)).
  compute_done.
Defined.

(** ** Enrichment of one record and of a list *)

Lemma validate_address d :
  _validate_wallet_data d = true ↔
  ∃ v, d !! "wallet_address" = Some v ∧ truthy v = true.
Proof.
  unfold _validate_wallet_data, required_fields. simpl.
  rewrite andb_true_r. destruct (d !! "wallet_address") as [v|].
  - split; [by exists v | by intros (v' & [= <-] & ?)].
  - split; [done | by intros (v & [=] & _)].
Qed.

(** X3.  [enrich_wallet_data] returns [None] exactly when the record has no
    [wallet_address] or a false one ([None], the empty string, zero).
    Otherwise it returns a new object: the record with [scrapeTimestamp] set
    to the time of the call, an earlier [scrapeTimestamp] of the record being
    overwritten. *)
Theorem enrich_rejects_exactly_invalid (raw : loc) (w : world) :
  (fst (enrich_wallet_data raw w) = None ↔
     ¬ ∃ v, deref (heap w) raw !! "wallet_address" = Some v ∧ truthy v = true) ∧
  (∀ enriched, fst (enrich_wallet_data raw w) = Some enriched →
     deref (heap (snd (enrich_wallet_data raw w))) enriched =
       <["scrapeTimestamp" := PTime (clock w)]> (deref (heap w) raw)).
Proof.
  rewrite enrich_wallet_data_result, <- validate_address.
  destruct (enrich_wallet_data_heap raw w) as (Hh & _). split.
  - destruct (_validate_wallet_data (deref (heap w) raw)); split; intros H;
      first [done | by destruct H].
  - intros e He. destruct (_validate_wallet_data _); [|done].
    injection He as <-. by rewrite Hh, deref_insert_eq.
Qed.

Lemma enrich_rejects_exactly_invalid_witness :
  fst (enrich_wallet_data 0%nat nameless_world) = None ∧
  deref (heap (snd (enrich_wallet_data 0%nat world_known))) 1%nat =
    <["scrapeTimestamp" := PTime 10]> wallet_A.
Proof.
  destruct (enrich_rejects_exactly_invalid 0%nat nameless_world) as (Hnone & _).
  destruct (enrich_rejects_exactly_invalid 0%nat world_known) as (_ & Hsome).
  split.
  - apply Hnone. intros (v & Hv & Ht). vm_compute in Hv.
    injection Hv as <-. by vm_compute in Ht.
  - apply Hsome. compute_done.
Defined.

Lemma enrich_dict_truthy raw w :
  dict_truthy (heap (snd (enrich_wallet_data raw w)))
    (fst (enrich_wallet_data raw w)) =
  _validate_wallet_data (deref (heap w) raw).
Proof.
  rewrite enrich_wallet_data_result.
  destruct (enrich_wallet_data_heap raw w) as (Hh & _).
  destruct (_validate_wallet_data _); [|done]. simpl.
  rewrite Hh, deref_insert_eq. apply bool_decide_eq_true.
  apply insert_non_empty.
Qed.

Lemma enrich_loop_cons l ws acc w :
  enrich_loop (l :: ws) acc w =
    enrich_loop ws
      (if _validate_wallet_data (deref (heap w) l)
       then acc ++ [fresh (dom (heap w))] else acc)
      (snd (enrich_wallet_data l w)).
Proof.
  simpl. pose proof (enrich_dict_truthy l w) as Ht.
  pose proof (enrich_wallet_data_result l w) as Hr.
  destruct (enrich_wallet_data l w) as [o w1]. simpl in Ht, Hr. rewrite Ht.
  destruct (_validate_wallet_data _); by subst o.
Qed.

Lemma enrich_wallet_data_clock raw w :
  clock (snd (enrich_wallet_data raw w)) = clock w + 1.
Proof. unfold enrich_wallet_data. simpl. by destruct (_validate_wallet_data _). Qed.

Lemma Forall2_impl_elem {A B : Type} (P Q : A → B → Prop) l k :
  Forall2 P l k → (∀ x y, x ∈ l → P x y → Q x y) → Forall2 Q l k.
Proof.
  induction 1 as [|x y l k Hxy Hlk IH]; intros H; constructor.
  - apply H; [by left | done].
  - apply IH. intros x' y' Hx'. apply H. by right.
Qed.

Lemma enrich_loop_spec ws : ∀ acc w,
  Forall (λ l, is_Some (heap w !! l)) ws →
  heap w ⊆ heap (snd (enrich_loop ws acc w)) ∧
  clock w ≤ clock (snd (enrich_loop ws acc w)) ∧
  ∃ es, fst (enrich_loop ws acc w) = acc ++ es ∧
    Forall2 (enriched_from w (snd (enrich_loop ws acc w)))
      (List.filter (λ l, _validate_wallet_data (deref (heap w) l)) ws) es.
Proof.
  induction ws as [|l ws IH]; intros acc w Hall.
  - simpl. split_and!; [done..|]. exists []. by rewrite app_nil_r.
  - apply Forall_cons in Hall as [Hl Hall].
    rewrite enrich_loop_cons.
    destruct (enrich_wallet_data_heap l w) as (Hh & _).
    pose proof (enrich_wallet_data_clock l w) as Hclk.
    pose proof (fresh_loc_unused (heap w)) as Hfresh.
    set (w1 := snd (enrich_wallet_data l w)) in *.
    set (f := fresh (dom (heap w))) in *.
    assert (Hsub : heap w ⊆ heap w1).
    { rewrite Hh. by apply insert_subseteq. }
    assert (Hsame : ∀ l', is_Some (heap w !! l') →
              deref (heap w1) l' = deref (heap w) l').
    { intros l' [d Hd]. unfold deref.
      by rewrite (lookup_weaken _ _ _ _ Hd Hsub), Hd. }
    set (acc1 := if _validate_wallet_data (deref (heap w) l)
                 then acc ++ [f] else acc).
    destruct (IH acc1 w1) as (Hsub' & Hclk' & es & Hes & Hf2).
    { eapply Forall_impl; [exact Hall|]. intros l' [d Hd].
      exists d. by eapply lookup_weaken. }
    set (w' := snd (enrich_loop ws acc1 w1)) in *.
    split_and!; [by etrans | lia |].
    rewrite (List.filter_ext_in
               (λ l, _validate_wallet_data (deref (heap w1) l))
               (λ l, _validate_wallet_data (deref (heap w) l))) in Hf2.
    2:{ intros l' Hl'. rewrite Hsame; [done|].
        rewrite Forall_forall in Hall. by apply Hall, list_elem_of_In. }
    assert (Hrest : Forall2 (enriched_from w w')
              (List.filter (λ l, _validate_wallet_data (deref (heap w) l)) ws) es).
    { eapply Forall2_impl_elem; [exact Hf2|].
      intros l' e Hl' (He & t & Ht & Hst).
      apply list_elem_of_In, filter_In in Hl' as [Hl' _].
      split; [by eapply lookup_weaken_None|].
      exists t. split; [lia|]. rewrite Hst, Hsame; [done|].
      rewrite Forall_forall in Hall. by apply Hall, list_elem_of_In. }
    simpl. subst acc1.
    destruct (_validate_wallet_data (deref (heap w) l)).
    + exists (f :: es). split; [by rewrite Hes, <- app_assoc|].
      constructor; [|done]. split; [done|].
      exists (clock w). split; [lia|].
      eapply lookup_weaken; [|exact Hsub']. rewrite Hh. apply lookup_insert_eq.
    + by exists es.
Qed.

(** X4.  [enrich_wallets], for fetched records that are objects of the heap:
    the result holds one new object for each record that has a true
    [wallet_address], in the order of the input, and that object is the
    record with [scrapeTimestamp] set to a time read during the call.  The
    other records are dropped, no object that existed before is changed, and
    the collection is not touched. *)
Theorem enrich_wallets_copies_valid (ws : list loc) (w : world) :
  Forall (λ l, is_Some (heap w !! l)) ws →
  let es := fst (enrich_wallets ws w) in
  let w' := snd (enrich_wallets ws w) in
  Forall2 (enriched_from w w')
    (List.filter (λ l, _validate_wallet_data (deref (heap w) l)) ws) es ∧
  length es =
    length (List.filter (λ l, _validate_wallet_data (deref (heap w) l)) ws) ∧
  Forall (λ e, _validate_wallet_data (deref (heap w') e) = true ∧
               is_Some (deref (heap w') e !! "scrapeTimestamp")) es ∧
  heap w ⊆ heap w' ∧ coll w' = coll w.
Proof.
  intros Hall es w'. subst es w'. unfold enrich_wallets.
  destruct (enrich_loop_spec ws [] w Hall) as (Hsub & _ & es & Hes & Hf2).
  destruct (enrich_loop_frame ws [] w) as (Hc & _).
  simpl in Hes. rewrite Hes.
  split_and!; [done | by rewrite (Forall2_length _ _ _ Hf2) | | done | done].
  assert (Hf2' : Forall2 (λ l e, _validate_wallet_data (deref (heap w) l) = true ∧
                    enriched_from w (snd (enrich_loop ws [] w)) l e)
                   (List.filter (λ l, _validate_wallet_data (deref (heap w) l)) ws) es).
  { eapply Forall2_impl_elem; [exact Hf2|]. intros l e Hl HR. split; [|done].
    by apply list_elem_of_In, filter_In in Hl as [_ ?]. }
  clear Hes Hf2.
  induction Hf2' as [|l e ls es' (Hv & He & t & _ & Hst) _ IH]; [done|].
  constructor; [|done].
  assert (Hd : deref (heap (snd (enrich_loop ws [] w))) e =
               <["scrapeTimestamp" := PTime t]> (deref (heap w) l)).
  { unfold deref at 1. by rewrite Hst. }
  rewrite Hd. split; [|by rewrite lookup_insert_eq].
  by rewrite <- (valid_bool_by_address (deref (heap w) l))
    by by rewrite lookup_insert_ne.
Qed.

Lemma enrich_wallets_copies_valid_witness :
  length (fst (enrich_wallets [0; 1]%nat batch_world)) = 1%nat ∧
  heap batch_world ⊆ heap (snd (enrich_wallets [0; 1]%nat batch_world)).
Proof.
  assert (Hall : Forall (λ l, is_Some (heap batch_world !! l)) [0; 1]%nat).
  { repeat constructor; compute_done. }
  destruct (enrich_wallets_copies_valid [0; 1]%nat batch_world Hall)
    as (_ & Hlen & _ & Hsub & _).
  split; [exact Hlen | exact Hsub].
Defined.

(** ** What a batch does to the collection *)

Lemma upsert_wallet_mongod l w : mongod (snd (upsert_wallet l w)) = mongod w.
Proof.
  unfold upsert_wallet.
  destruct (deref (heap (stamp l w)) l !! "wallet_address") as [addr|];
    [|apply stamp_mongod].
  pose proof (replace_one_mongod addr (deref (heap (stamp l w)) l) (stamp l w))
    as Hm.
  destruct (replace_one _ _ _) as [[|] ?]; simpl in *;
    by rewrite Hm, stamp_mongod.
Qed.

Lemma batch_step_mongod l s w : mongod (snd (batch_step l s w)) = mongod w.
Proof.
  unfold batch_step.
  destruct (deref (heap (stamp l w)) l !! "wallet_address") as [addr|];
    [|apply stamp_mongod].
  pose proof (replace_one_mongod addr (deref (heap (stamp l w)) l) (stamp l w))
    as Hm.
  destruct (replace_one _ _ _) as [[[]|] ?]; simpl in *;
    by rewrite Hm, stamp_mongod.
Qed.

Lemma batch_loop_mongod ls : ∀ s w, mongod (snd (batch_loop ls s w)) = mongod w.
Proof.
  induction ls as [|l ls IH]; intros s w; [done|].
  by rewrite batch_loop_cons, IH, batch_step_mongod.
Qed.

Lemma batch_step_address l0 s w l :
  deref (heap (snd (batch_step l0 s w))) l !! "wallet_address" =
    deref (heap w) l !! "wallet_address".
Proof.
  destruct (batch_step_heap l0 s w) as (-> & _). by rewrite stamp_field.
Qed.

Lemma text_address_step l0 s w ls :
  Forall (λ l, text_address (deref (heap w) l)) ls →
  Forall (λ l, text_address (deref (heap (snd (batch_step l0 s w))) l)) ls.
Proof.
  intros Ht. eapply Forall_impl; [exact Ht|]. intros l. unfold text_address.
  by rewrite batch_step_address.
Qed.

Lemma text_address_plain d addr :
  text_address d → d !! "wallet_address" = Some addr → plain addr.
Proof. unfold text_address. intros Ht Ha. rewrite Ha in Ht. by destruct addr. Qed.

Lemma replace_one_keys r w :
  plain (index_key r) →
  (fst (replace_one (index_key r) r w) = Ok true ∧
   keys (coll (snd (replace_one (index_key r) r w))) =
     keys (coll w) ++ [index_key r]) ∨
  (fst (replace_one (index_key r) r w) ≠ Ok true ∧
   keys (coll (snd (replace_one (index_key r) r w))) = keys (coll w)).
Proof.
  intros Hp. unfold replace_one. cbn [count_call mongod coll].
  destruct (accepts _ _ _ _); [|by right].
  rewrite find_plain by done.
  destruct (list_find (has_key (index_key r)) (coll w)) as [[i d0]|] eqn:Hf;
    case_bool_decide; cbn [fst snd set_coll coll]; auto.
  - right. split; [done|].
    apply list_find_Some in Hf as (Hi & Hk & _).
    unfold keys. rewrite list_fmap_insert. apply list_insert_id.
    by rewrite list_lookup_fmap, Hi, <- Hk.
  - left. split; [done|]. by rewrite keys_app.
Qed.

(** A write under a key that is no set of operators leaves the documents
    stored under other keys where they are. *)
Lemma replace_one_others k r w i d :
  plain k → coll w !! i = Some d → index_key d ≠ k →
  coll (snd (replace_one k r w)) !! i = Some d.
Proof.
  intros Hp Hi Hne. unfold replace_one. cbn [count_call mongod coll].
  destruct (accepts _ _ _ _); [|done].
  rewrite find_plain by done.
  destruct (list_find (has_key k) (coll w)) as [[i0 d0]|] eqn:Hf;
    case_bool_decide; cbn [fst snd set_coll coll]; try done.
  - apply list_find_Some in Hf as (Hi0 & Hk0 & _).
    rewrite list_lookup_insert_ne; [done|].
    intros ->. rewrite Hi in Hi0. by injection Hi0 as ->.
  - by apply lookup_app_l_Some.
Qed.

Lemma batch_step_keys l s w :
  text_address (deref (heap w) l) →
  ∃ new, keys (coll (snd (batch_step l s w))) = keys (coll w) ++ new ∧
    inserted (fst (batch_step l s w)) = (inserted s + length new)%nat.
Proof.
  intros Ht. unfold batch_step. destruct (stamp_frame l w) as (Hc & _).
  destruct (deref (heap (stamp l w)) l !! "wallet_address") as [addr|] eqn:Ha.
  - assert (Hp : plain addr).
    { apply (text_address_plain _ _ Ht). by rewrite <- Ha, stamp_field. }
    rewrite <- (index_key_address _ _ Ha) in Hp |- *.
    destruct (replace_one_keys (deref (heap (stamp l w)) l) (stamp l w) Hp)
      as [(Hr & Hk)|(Hr & Hk)]; rewrite Hc in Hk;
      destruct (replace_one _ _ _) as [[[]|] w2]; simpl in *; try done.
    + exists [index_key (deref (heap (stamp l w)) l)]. split; [done|].
      simpl. lia.
    + exists []. rewrite app_nil_r. split; [done|]. simpl. lia.
    + exists []. rewrite app_nil_r. split; [done|]. simpl. lia.
  - exists []. simpl. rewrite app_nil_r, Hc. split; [done|]. lia.
Qed.

Lemma batch_loop_keys ls : ∀ s w,
  Forall (λ l, text_address (deref (heap w) l)) ls →
  ∃ new, keys (coll (snd (batch_loop ls s w))) = keys (coll w) ++ new ∧
    inserted (fst (batch_loop ls s w)) = (inserted s + length new)%nat.
Proof.
  induction ls as [|l ls IH]; intros s w Ht.
  - exists []. simpl. rewrite app_nil_r. split; [done|]. lia.
  - rewrite batch_loop_cons. apply Forall_cons in Ht as [Hl Ht].
    destruct (batch_step_keys l s w Hl) as (new1 & Hk1 & Hi1).
    destruct (IH (fst (batch_step l s w)) (snd (batch_step l s w)))
      as (new2 & Hk2 & Hi2); [by apply text_address_step|].
    exists (new1 ++ new2). rewrite Hk2, Hk1, Hi2, Hi1, <- app_assoc, length_app.
    split; [done|]. lia.
Qed.

Lemma batch_step_others l s w i d :
  text_address (deref (heap w) l) →
  coll w !! i = Some d →
  deref (heap w) l !! "wallet_address" ≠ Some (index_key d) →
  coll (snd (batch_step l s w)) !! i = Some d.
Proof.
  intros Ht Hi Hne. unfold batch_step. destruct (stamp_frame l w) as (Hc & _).
  rewrite stamp_field by done.
  destruct (deref (heap w) l !! "wallet_address") as [addr|] eqn:Ha;
    [|cbn; by rewrite Hc].
  assert (Hp : plain addr) by by apply (text_address_plain _ _ Ht).
  pose proof (replace_one_others addr (deref (heap (stamp l w)) l) (stamp l w)
                i d Hp) as Ho.
  rewrite Hc in Ho.
  destruct (replace_one _ _ _) as [[[]|] w2]; simpl in *;
    apply Ho; congruence.
Qed.

Lemma batch_loop_others ls : ∀ s w i d,
  Forall (λ l, text_address (deref (heap w) l)) ls →
  coll w !! i = Some d →
  (∀ l, l ∈ ls → deref (heap w) l !! "wallet_address" ≠ Some (index_key d)) →
  coll (snd (batch_loop ls s w)) !! i = Some d.
Proof.
  induction ls as [|l ls IH]; intros s w i d Ht Hi Hne; [done|].
  rewrite batch_loop_cons. apply Forall_cons in Ht as [Hl Ht].
  apply IH.
  - by apply text_address_step.
  - apply batch_step_others; [done..|]. apply Hne. by left.
  - intros l' Hl'. rewrite batch_step_address. apply Hne. by right.
Qed.

Lemma prefix_of_submseteq {A : Type} (l k : list A) :
  l `prefix_of` k → l ⊆+ k.
Proof. intros [k' ->]. by apply submseteq_inserts_r. Qed.

(** X5.  When the address of every record of the batch that has one is a
    string, [upsert_wallets_batch] loses no stored address: every address
    stored before the batch is stored after it, at least as often; and a
    document stored under an address that no record of the batch has is
    still stored, unchanged, after the batch. *)
Theorem upsert_wallets_batch_appends (ls : list loc) (w : world) :
  Forall (λ l, text_address (deref (heap w) l)) ls →
  let w' := snd (upsert_wallets_batch ls w) in
  keys (coll w) ⊆+ keys (coll w') ∧
  (∀ d, d ∈ coll w →
     (∀ l, l ∈ ls → deref (heap w) l !! "wallet_address" ≠ Some (index_key d)) →
     d ∈ coll w').
Proof.
  intros Ht w'. subst w'. unfold upsert_wallets_batch. split.
  - destruct (batch_loop_keys ls (mkStats 0 0 0) w Ht) as (new & Hk & _).
    apply prefix_of_submseteq. by exists new.
  - intros d Hd Hne. apply list_elem_of_lookup in Hd as (i & Hi).
    eapply list_elem_of_lookup_2. by apply batch_loop_others.
Qed.

Lemma upsert_wallets_batch_appends_witness :
  keys (coll world_known) ⊆+
    keys (coll (snd (upsert_wallets_batch [0%nat] world_known))).
Proof.
  apply (upsert_wallets_batch_appends [0%nat] world_known).
  apply Forall_singleton. compute_done.
Defined.

Lemma batch_loop_unique ls : ∀ s w,
  NoDup (keys (coll w)) →
  takes_all (mongod w) →
  Forall (λ l, text_address (deref (heap w) l)) ls →
  NoDup (keys (coll (snd (batch_loop ls s w)))) ∧
  errors (fst (batch_loop ls s w)) =
    (errors s + length (List.filter (λ l, negb (has_address (heap w) l)) ls))%nat.
Proof.
  induction ls as [|l ls IH]; intros s w Hnd Hall Ht.
  - simpl. split; [done|]. lia.
  - rewrite batch_loop_cons. apply Forall_cons in Ht as [Hl Ht].
    assert (Hnd1 : NoDup (keys (coll (snd (batch_step l s w))))).
    { by apply (batch_step_inv (λ _, True) l s w);
        [done | done | | apply Forall_true]. }
    destruct (IH (fst (batch_step l s w)) (snd (batch_step l s w)) Hnd1)
      as (Hnd' & He).
    { by rewrite batch_step_mongod. }
    { by apply text_address_step. }
    split; [done|]. rewrite He.
    rewrite (List.filter_ext _ (λ l, negb (has_address (heap w) l)))
      by (intros; by rewrite has_address_step).
    simpl. unfold has_address at 2.
    destruct (deref (heap w) l !! "wallet_address") as [addr|] eqn:Ha.
    + rewrite bool_decide_eq_true_2 by by eexists. simpl.
      rewrite (batch_step_unique l s w addr Hnd Ha
                 (text_address_plain _ _ Hl Ha) (Hall _ _ _)). simpl.
      by destruct (bool_decide (addr ∉ keys (coll w))).
    + rewrite bool_decide_eq_false_2 by by intros [? ?]. simpl.
      rewrite (batch_step_missing l s w Ha). simpl. lia.
Qed.

(** X6.  In a collection that obeys the unique index, when the database
    takes every write and the address of every record that has one is a
    string, the [errors] of [upsert_wallets_batch] are exactly the records
    without a [wallet_address], every other record is inserted or updated,
    and the collection still obeys the index afterwards. *)
Theorem upsert_wallets_batch_errors_exact (ls : list loc) (w : world) :
  NoDup (keys (coll w)) →
  takes_all (mongod w) →
  Forall (λ l, text_address (deref (heap w) l)) ls →
  let s := fst (upsert_wallets_batch ls w) in
  errors s = length (List.filter (λ l, negb (has_address (heap w) l)) ls) ∧
  (inserted s + updated s)%nat =
    length (List.filter (has_address (heap w)) ls) ∧
  NoDup (keys (coll (snd (upsert_wallets_batch ls w)))).
Proof.
  intros Hnd Hall Ht s. subst s. unfold upsert_wallets_batch.
  destruct (batch_loop_unique ls (mkStats 0 0 0) w Hnd Hall Ht) as (Hnd' & He).
  destruct (batch_loop_accounted ls (mkStats 0 0 0) w) as (Hacc & _).
  unfold accounted in Hacc. simpl in He, Hacc.
  split_and!; [done| |done].
  pose proof (List.filter_length (has_address (heap w)) ls) as Hlen.
  lia.
Qed.

Lemma upsert_wallets_batch_errors_exact_witness :
  errors (fst (upsert_wallets_batch [0; 1; 0]%nat batch_world)) = 1%nat.
Proof.
  assert (Hnd : NoDup (keys (coll batch_world))) by constructor.
  destruct (upsert_wallets_batch_errors_exact [0; 1; 0]%nat batch_world Hnd)
    as (He & _).
  - by intros k r c.
  - repeat constructor; compute_done.
  - rewrite He. compute_done.
Defined.

(** A write the database refuses is an error of the batch although the
    record has an address: the count of errors is then above the number of
    records without one. *)
Lemma upsert_wallets_batch_refusal_counted :
  let w := mkWorld {[ 0%nat := <["buy" := PNum (Q2Qc (2 ^ 63))]> wallet_A ]}
             [] 10 0 [] sixty_four_bits in
  fst (upsert_wallets_batch [0%nat] w) = mkStats 0 0 1 ∧
  has_address (heap w) 0%nat = true.
Proof. cbv zeta. compute_done. Qed.

(** ** One upsert and many *)

(** X7.  [upsert_wallet] on a record without [wallet_address] answers
    [False], logs an error and sends nothing to the collection; the record
    has been stamped all the same, so it carries a [scrapeTimestamp]
    afterwards. *)
Theorem upsert_wallet_without_address (l : loc) (w : world) :
  deref (heap w) l !! "wallet_address" = None →
  fst (upsert_wallet l w) = false ∧
  coll (snd (upsert_wallet l w)) = coll w ∧
  store_calls (snd (upsert_wallet l w)) = store_calls w ∧
  log (snd (upsert_wallet l w)) = log w ++ [LogError] ∧
  heap (snd (upsert_wallet l w)) = heap (stamp l w) ∧
  is_Some (deref (heap (snd (upsert_wallet l w))) l !! "scrapeTimestamp").
Proof.
  intros Ha. unfold upsert_wallet. rewrite stamp_field, Ha by done. simpl.
  destruct (stamp_frame l w) as (Hc & Hl & Hn & _).
  rewrite Hc, Hl, Hn. split_and!; try done. apply stamp_stamped.
Qed.

Lemma upsert_wallet_without_address_witness :
  fst (upsert_wallet 1%nat batch_world) = false ∧
  deref (heap (snd (upsert_wallet 1%nat batch_world))) 1%nat =
    {[ "winrate_7d" := PNum (ratio 9 10); "scrapeTimestamp" := PTime 10 ]}.
Proof.
  destruct (upsert_wallet_without_address 1%nat batch_world) as (Hf & _);
    [reflexivity|].
  split; [exact Hf | compute_done].
Defined.

Lemma batch_step_vs_upsert l s w :
  same_store (snd (batch_step l s w)) (snd (upsert_wallet l w)) ∧
  outcome_stats s (fst (upsert_wallet l w)) (fst (batch_step l s w)).
Proof.
  unfold batch_step, upsert_wallet, same_store, outcome_stats.
  destruct (deref (heap (stamp l w)) l !! "wallet_address") as [addr|]; [|done].
  destruct (replace_one addr (deref (heap (stamp l w)) l) (stamp l w))
    as [[[]|] w2]; simpl; auto.
Qed.

Lemma upsert_wallet_same_store l w1 w2 :
  same_store w1 w2 → mongod w1 = mongod w2 →
  same_store (snd (upsert_wallet l w1)) (snd (upsert_wallet l w2)) ∧
  fst (upsert_wallet l w1) = fst (upsert_wallet l w2).
Proof.
  intros (Hh & Hc & Ht & Hn) Hm.
  destruct w1 as [h1 c1 t1 n1 lg1 m1], w2 as [h2 c2 t2 n2 lg2 m2].
  simpl in *. subst h2 c2 t2 n2 m2.
  unfold upsert_wallet, stamp, replace_one, same_store. simpl.
  repeat (case_match; simpl in *; simplify_eq); try done; congruence.
Qed.

Lemma upsert_each_cons l ls w :
  upsert_each (l :: ls) w =
    (fst (upsert_wallet l w) :: fst (upsert_each ls (snd (upsert_wallet l w))),
     snd (upsert_each ls (snd (upsert_wallet l w)))).
Proof.
  simpl. destruct (upsert_wallet l w) as [b w1]. simpl.
  by destruct (upsert_each ls w1).
Qed.

Lemma batch_loop_as_upserts ls : ∀ s w1 w2,
  same_store w1 w2 → mongod w1 = mongod w2 →
  same_store (snd (batch_loop ls s w1)) (snd (upsert_each ls w2)) ∧
  errors (fst (batch_loop ls s w1)) =
    (errors s + length (List.filter negb (fst (upsert_each ls w2))))%nat ∧
  (inserted (fst (batch_loop ls s w1)) + updated (fst (batch_loop ls s w1)))%nat =
    (inserted s + updated s
     + length (List.filter id (fst (upsert_each ls w2))))%nat.
Proof.
  induction ls as [|l ls IH]; intros s w1 w2 Hsame Hm.
  - simpl. split_and!; [done|lia|lia].
  - rewrite batch_loop_cons, upsert_each_cons.
    destruct (batch_step_vs_upsert l s w1) as (H1 & Hout).
    destruct (upsert_wallet_same_store l w1 w2 Hsame Hm) as (H2 & Hb).
    assert (Hsame1 : same_store (snd (batch_step l s w1)) (snd (upsert_wallet l w2))).
    { destruct H1 as (? & ? & ? & ?), H2 as (? & ? & ? & ?).
      split_and!; congruence. }
    destruct (IH (fst (batch_step l s w1)) _ _ Hsame1) as (Hs & He & Hi).
    { by rewrite batch_step_mongod, upsert_wallet_mongod. }
    split; [done|]. rewrite He, Hi. simpl.
    rewrite Hb in Hout. unfold outcome_stats in Hout.
    destruct (fst (upsert_wallet l w2)); simpl.
    + destruct Hout as [-> | ->]; simpl; lia.
    + rewrite Hout. simpl. lia.
Qed.

(** X8.  [upsert_wallets_batch] does to the collection, to the records and
    to the clock what calling [upsert_wallet] on each record in turn does;
    only the log differs.  Its [errors] are the calls that would answer
    [False], and [inserted + updated] the calls that would answer [True]. *)
Theorem upsert_wallets_batch_as_upserts (ls : list loc) (w : world) :
  let s := fst (upsert_wallets_batch ls w) in
  let answers := fst (upsert_each ls w) in
  same_store (snd (upsert_wallets_batch ls w)) (snd (upsert_each ls w)) ∧
  errors s = length (List.filter negb answers) ∧
  (inserted s + updated s)%nat = length (List.filter id answers).
Proof.
  intros s answers. subst s answers. unfold upsert_wallets_batch.
  destruct (batch_loop_as_upserts ls (mkStats 0 0 0) w w) as (Hs & He & Hi);
    [done..|].
  simpl in He, Hi. by split_and!.
Qed.

(** ** A run against a collection that obeys the unique index *)

Lemma filter_by_winrate_elem h ws m l : l ∈ filter_by_winrate h ws m → l ∈ ws.
Proof.
  intros Hl. destruct (filter_by_winrate_cases h ws m) as [E|E]; rewrite E in Hl.
  - by apply not_elem_of_nil in Hl.
  - apply list_elem_of_In, filter_In in Hl as [Hl _]. by apply list_elem_of_In.
Qed.

Lemma run_scrape_stages m raw w :
  run_scrape m raw w =
    let w0 := snd (utcnow w) in
    match raw with
    | [] => (false, w0)
    | _ :: _ =>
        match filter_wallets m raw w0 with
        | [] => (true, w0)
        | _ :: _ =>
            let en := enrich_wallets (filter_wallets m raw w0) w0 in
            match fst en with
            | [] => (false, snd en)
            | _ :: _ =>
                (bool_decide
                   (errors (fst (upsert_wallets_batch (fst en) (snd en))) = 0%nat),
                 snd (utcnow (snd (upsert_wallets_batch (fst en) (snd en)))))
            end
        end
    end.
Proof.
  unfold run_scrape.
  change (utcnow w) with (PTime (clock w), snd (utcnow w)) at 1.
  cbv iota beta zeta.
  destruct raw as [|r raw]; [done|].
  destruct (filter_wallets m (r :: raw) (snd (utcnow w))) as [|f fs]; [done|].
  destruct (enrich_wallets (f :: fs) (snd (utcnow w))) as [[|e es] w2]; [done|].
  cbn [fst snd]. unfold store_wallets.
  by destruct (upsert_wallets_batch (e :: es) w2) as [st w3].
Qed.

Lemma batch_loop_heap_stamped ls : ∀ s w,
  Forall (λ l, is_Some (deref (heap w) l !! "scrapeTimestamp")) ls →
  heap (snd (batch_loop ls s w)) = heap w.
Proof.
  induction ls as [|l ls IH]; intros s w Hall; [done|].
  apply Forall_cons in Hall as [Hl Hall].
  rewrite batch_loop_cons.
  destruct (batch_step_heap l s w) as (Hh & _).
  rewrite stamp_present in Hh by done.
  rewrite IH; [done|]. by rewrite Hh.
Qed.

Lemma enrich_wallet_data_mongod raw w :
  mongod (snd (enrich_wallet_data raw w)) = mongod w.
Proof.
  unfold enrich_wallet_data. simpl. by destruct (_validate_wallet_data _).
Qed.

Lemma enrich_loop_mongod ws : ∀ acc w,
  mongod (snd (enrich_loop ws acc w)) = mongod w.
Proof.
  induction ws as [|l ws IH]; intros acc w; [done|]. simpl.
  pose proof (enrich_wallet_data_mongod l w) as Hm.
  destruct (enrich_wallet_data l w) as [o w1]. simpl in Hm.
  destruct (dict_truthy (heap w1) o); by rewrite IH.
Qed.

Lemma batch_loop_stores ls : ∀ s w l addr,
  NoDup (keys (coll w)) →
  takes_all (mongod w) →
  Forall (λ l, text_address (deref (heap w) l)) ls →
  l ∈ ls →
  deref (heap w) l !! "wallet_address" = Some addr →
  addr ∈ keys (coll (snd (batch_loop ls s w))).
Proof.
  induction ls as [|l0 ls IH]; intros s w l addr Hnd Hall Ht Hl Ha.
  - by apply not_elem_of_nil in Hl.
  - rewrite batch_loop_cons. apply Forall_cons in Ht as [Hl0 Ht].
    apply elem_of_cons in Hl as [->|Hl].
    + destruct (batch_loop_keys ls (fst (batch_step l0 s w))
                  (snd (batch_step l0 s w))) as (new & -> & _);
        [by apply text_address_step|].
      apply elem_of_app. left.
      rewrite (batch_step_unique l0 s w addr Hnd Ha
                 (text_address_plain _ _ Hl0 Ha) (Hall _ _ _)). simpl.
      apply list_elem_of_fmap. exists (deref (heap (stamp l0 w)) l0).
      split; [|apply upsert_doc_elem].
      symmetry. apply index_key_address. by rewrite stamp_field.
    + apply (IH _ _ l).
      * by apply (batch_step_inv (λ _, True) l0 s w);
          [done | done | | apply Forall_true].
      * by rewrite batch_step_mongod.
      * by apply text_address_step.
      * done.
      * by rewrite batch_step_address.
Qed.

Lemma list_filter_none {A : Type} (f : A → bool) (l : list A) :
  (∀ x, x ∈ l → f x = false) → List.filter f l = [].
Proof.
  induction l as [|a l IH]; intros H; simpl; [done|].
  rewrite (H a) by by left. apply IH. intros x Hx. apply H. by right.
Qed.

(** The facts a run rests on, once the filter has left something. *)
Lemma healthy_store_stage (filtered : list loc) (w0 : world) :
  NoDup (keys (coll w0)) →
  takes_all (mongod w0) →
  Forall (λ l, is_Some (heap w0 !! l)) filtered →
  Forall (λ l, text_address (deref (heap w0) l)) filtered →
  let en := enrich_wallets filtered w0 in
  let st := upsert_wallets_batch (fst en) (snd en) in
  Forall2 (enriched_from w0 (snd en))
    (List.filter (λ l, _validate_wallet_data (deref (heap w0) l)) filtered)
    (fst en) ∧
  heap w0 ⊆ heap (snd en) ∧
  heap (snd st) = heap (snd en) ∧
  errors (fst st) = 0%nat ∧
  NoDup (keys (coll (snd st))) ∧
  keys (coll w0) `prefix_of` keys (coll (snd st)) ∧
  (Forall (λ d, _validate_wallet_data d = true) (coll w0) →
   Forall (λ d, _validate_wallet_data d = true) (coll (snd st))) ∧
  (∀ l, l ∈ filtered → _validate_wallet_data (deref (heap w0) l) = true →
     index_key (deref (heap w0) l) ∈ keys (coll (snd st))).
Proof.
  intros Hnd Htakes Hall Htext en st. subst en st.
  unfold enrich_wallets, upsert_wallets_batch.
  destruct (enrich_loop_spec filtered [] w0 Hall) as (Hsub & _ & es & Hes & Hf2).
  destruct (enrich_loop_frame filtered [] w0) as (Hc & _).
  pose proof (enrich_loop_mongod filtered [] w0) as Hm.
  simpl in Hes. rewrite Hes in *.
  set (w1 := snd (enrich_loop filtered [] w0)) in *.
  assert (Hf2' : Forall2 (λ l e, l ∈ filtered ∧
                    _validate_wallet_data (deref (heap w0) l) = true ∧
                    enriched_from w0 w1 l e)
                   (List.filter (λ l, _validate_wallet_data (deref (heap w0) l))
                      filtered) es).
  { eapply Forall2_impl_elem; [exact Hf2|]. intros l e Hl HR.
    apply list_elem_of_In, filter_In in Hl as [Hl Hv].
    by apply list_elem_of_In in Hl. }
  assert (Hcopy : ∀ l e, enriched_from w0 w1 l e →
            ∃ t, deref (heap w1) e =
                   <["scrapeTimestamp" := PTime t]> (deref (heap w0) l)).
  { intros l e (_ & t & _ & Hst). exists t. unfold deref at 1. by rewrite Hst. }
  assert (Hes_ok : Forall (λ e,
            is_Some (deref (heap w1) e !! "scrapeTimestamp") ∧
            _validate_wallet_data (deref (heap w1) e) = true ∧
            has_address (heap w1) e = true ∧
            text_address (deref (heap w1) e)) es).
  { clear Hf2 Hes. induction Hf2' as [|l e ls es' (Hl & Hv & HR) _ IH]; [done|].
    constructor; [|done]. destruct (Hcopy l e HR) as (t & Hd).
    assert (Ha : deref (heap w1) e !! "wallet_address" =
                 deref (heap w0) l !! "wallet_address").
    { by rewrite Hd, lookup_insert_ne. }
    split_and!.
    - rewrite Hd, lookup_insert_eq. by eexists.
    - by rewrite (valid_bool_by_address _ _ Ha).
    - unfold has_address. apply bool_decide_eq_true. rewrite Ha.
      apply validate_address in Hv as (v & -> & _). by eexists.
    - unfold text_address. rewrite Ha.
      rewrite Forall_forall in Htext. by apply Htext. }
  assert (Hnd1 : NoDup (keys (coll w1))) by by rewrite Hc.
  assert (Htakes1 : takes_all (mongod w1)) by by rewrite Hm.
  assert (Htext1 : Forall (λ e, text_address (deref (heap w1) e)) es).
  { eapply Forall_impl; [exact Hes_ok|]. by intros e (_ & _ & _ & ?). }
  destruct (batch_loop_unique es (mkStats 0 0 0) w1 Hnd1 Htakes1 Htext1)
    as (Hnd2 & He).
  destruct (batch_loop_keys es (mkStats 0 0 0) w1 Htext1) as (new & Hk & _).
  split_and!.
  - done.
  - done.
  - apply batch_loop_heap_stamped. eapply Forall_impl; [exact Hes_ok|].
    by intros e (? & _).
  - rewrite He. simpl.
    rewrite list_filter_none; [done|].
    intros e He'. rewrite Forall_forall in Hes_ok.
    apply Hes_ok in He' as (_ & _ & Hha & _). by rewrite Hha.
  - done.
  - rewrite Hk, <- Hc. by exists new.
  - intros Hvalid.
    apply (batch_loop_inv _ es _ w1 valid_by_address); [|done|by rewrite Hc].
    eapply Forall_impl; [exact Hes_ok|]. by intros e (_ & ? & _) _.
  - intros l Hl Hv.
    assert (Hin : l ∈ List.filter (λ l, _validate_wallet_data (deref (heap w0) l))
                        filtered).
    { apply list_elem_of_In, filter_In. split; [by apply list_elem_of_In|done]. }
    apply list_elem_of_lookup in Hin as (i & Hi).
    destruct (Forall2_lookup_l _ _ _ _ _ Hf2 Hi) as (e & Hei & HR).
    destruct (Hcopy l e HR) as (t & Hd).
    apply (batch_loop_stores es _ w1 e); [done..| |].
    + by eapply list_elem_of_lookup_2.
    + rewrite Hd, lookup_insert_ne by done.
      apply validate_address in Hv as (v & Hv & _).
      rewrite Hv. f_equal. symmetry. by apply index_key_address.
Qed.

Lemma healthy_run (m : Qc) (raw : list loc) (w : world) :
  NoDup (keys (coll w)) →
  takes_all (mongod w) →
  Forall (λ l, is_Some (heap w !! l)) raw →
  Forall (λ l, text_address (deref (heap w) l)) raw →
  let filtered := filter_by_winrate (heap w) raw m in
  let valid := λ l, _validate_wallet_data (deref (heap w) l) in
  let out := run_scrape m raw w in
  fst out = bool_decide (raw ≠ [] ∧ (filtered = [] ∨ List.filter valid filtered ≠ [])) ∧
  heap w ⊆ heap (snd out) ∧
  NoDup (keys (coll (snd out))) ∧
  keys (coll w) `prefix_of` keys (coll (snd out)) ∧
  (Forall (λ d, _validate_wallet_data d = true) (coll w) →
   Forall (λ d, _validate_wallet_data d = true) (coll (snd out))) ∧
  (fst out = true → ∀ l, l ∈ filtered → valid l = true →
     index_key (deref (heap w) l) ∈ keys (coll (snd out))).
Proof.
  intros Hnd Htakes Hall Htext filtered valid out. subst out.
  rewrite run_scrape_stages. cbv zeta.
  change (filter_wallets m raw (snd (utcnow w))) with filtered.
  destruct raw as [|r raw].
  { cbn [fst snd]. rewrite bool_decide_eq_false_2 by by intros [? _].
    split_and!; try done. }
  destruct (decide (filtered = [])) as [Ef|Ef].
  { rewrite Ef. cbn [fst snd].
    rewrite bool_decide_eq_true_2 by (split; [done|by left]).
    split_and!; try done. intros _ l Hl. by apply not_elem_of_nil in Hl. }
  rewrite (list_case_nonempty filtered) by done.
  assert (Hall0 : Forall (λ l, is_Some (heap (snd (utcnow w)) !! l)) filtered).
  { apply Forall_forall. intros l Hl. rewrite Forall_forall in Hall.
    apply Hall. by eapply filter_by_winrate_elem. }
  assert (Htext0 : Forall (λ l, text_address (deref (heap (snd (utcnow w))) l))
                     filtered).
  { apply Forall_forall. intros l Hl. rewrite Forall_forall in Htext.
    apply Htext. by eapply filter_by_winrate_elem. }
  destruct (healthy_store_stage filtered (snd (utcnow w)) Hnd Htakes Hall0 Htext0)
    as (Hf2 & Hsub & Hh & He & Hnd' & Hpre & Hval & Hsto).
  change (heap (snd (utcnow w))) with (heap w) in *.
  change (coll (snd (utcnow w))) with (coll w) in *.
  fold valid in Hf2, Hsto.
  destruct (enrich_loop_frame filtered [] (snd (utcnow w))) as (Hc & _).
  fold (enrich_wallets filtered (snd (utcnow w))) in Hc.
  change (coll (snd (utcnow w))) with (coll w) in Hc.
  destruct (decide (fst (enrich_wallets filtered (snd (utcnow w))) = []))
    as [Ee|Ee].
  - rewrite Ee in Hf2 |- *. apply Forall2_nil_inv_r in Hf2.
    cbn [fst snd]. rewrite Hc.
    rewrite bool_decide_eq_false_2 by (intros [_ [?|?]]; done).
    split_and!; try done.
  - rewrite (list_case_nonempty (fst (enrich_wallets filtered (snd (utcnow w)))))
      by done.
    cbn [fst snd].
    change (heap (snd (utcnow ?x))) with (heap x).
    change (coll (snd (utcnow ?x))) with (coll x).
    rewrite He, Hh.
    rewrite (bool_decide_eq_true_2 (0%nat = 0%nat)) by done.
    rewrite bool_decide_eq_true_2.
    2:{ split; [done|]. right. intros E. rewrite E in Hf2.
        by apply Forall2_nil_inv_l in Hf2. }
    split_and!; first [done | intros _ l Hl Hv; by apply Hsto].
Qed.

(** X9.  Take a collection that obeys the unique index and a database that
    takes every write, and fetched records that are objects of the heap and
    whose address, when they have one, is a string.  Then [run_scrape] fails
    in two cases only: nothing was fetched, or records passed the winrate
    filter and none of them has a true [wallet_address]; a run that reaches
    the collection succeeds. *)
Theorem run_scrape_healthy_outcome (m : Qc) (raw : list loc) (w : world) :
  NoDup (keys (coll w)) →
  takes_all (mongod w) →
  Forall (λ l, is_Some (heap w !! l)) raw →
  Forall (λ l, text_address (deref (heap w) l)) raw →
  let filtered := filter_by_winrate (heap w) raw m in
  fst (run_scrape m raw w) = true ↔
  raw ≠ [] ∧
  (filtered = [] ∨
   Exists (λ l, _validate_wallet_data (deref (heap w) l) = true) filtered).
Proof.
  intros Hnd Htakes Hall Htext filtered.
  destruct (healthy_run m raw w Hnd Htakes Hall Htext) as (-> & _).
  fold filtered. rewrite bool_decide_eq_true.
  assert (Hex : List.filter (λ l, _validate_wallet_data (deref (heap w) l)) filtered ≠ []
                ↔ Exists (λ l, _validate_wallet_data (deref (heap w) l) = true) filtered).
  { rewrite Exists_exists. split.
    - intros Hne.
      destruct (List.filter _ filtered) as [|l ls] eqn:E; [done|].
      assert (Hl : In l (List.filter
                (λ l, _validate_wallet_data (deref (heap w) l)) filtered))
        by (rewrite E; by left).
      apply filter_In in Hl as [Hl Hv]. exists l.
      split; [by apply list_elem_of_In | done].
    - intros (l & Hl & Hv) E.
      assert (Hin : In l (List.filter
                (λ l, _validate_wallet_data (deref (heap w) l)) filtered)).
      { apply filter_In. split; [by apply list_elem_of_In | done]. }
      by rewrite E in Hin. }
  by rewrite Hex.
Qed.

Lemma run_scrape_healthy_outcome_witness :
  fst (run_scrape (ratio 1 2) [0; 1]%nat scenario_world) = true.
Proof.
  apply (run_scrape_healthy_outcome (ratio 1 2) [0; 1]%nat scenario_world).
  - constructor.
  - by intros k r c.
  - repeat constructor; compute_done.
  - repeat constructor; compute_done.
  - split; [done|]. right. apply Exists_exists. exists 0%nat.
    split; compute_done.
Defined.

(** X10.  Under the same conditions a run changes no object that existed
    before it, the fetched records among them, and it loses no stored
    address: every address stored before the run is stored after it, at
    least as often. *)
Theorem run_scrape_preserves (m : Qc) (raw : list loc) (w : world) :
  NoDup (keys (coll w)) →
  takes_all (mongod w) →
  Forall (λ l, is_Some (heap w !! l)) raw →
  Forall (λ l, text_address (deref (heap w) l)) raw →
  heap w ⊆ heap (snd (run_scrape m raw w)) ∧
  keys (coll w) ⊆+ keys (coll (snd (run_scrape m raw w))).
Proof.
  intros Hnd Htakes Hall Htext.
  destruct (healthy_run m raw w Hnd Htakes Hall Htext)
    as (_ & ? & _ & ? & _).
  split; [done | by apply prefix_of_submseteq].
Qed.

Lemma run_scrape_preserves_witness :
  heap scenario_world ⊆ heap (snd (run_scrape (ratio 1 2) [0; 1]%nat scenario_world)).
Proof.
  apply (run_scrape_preserves (ratio 1 2) [0; 1]%nat scenario_world).
  - constructor.
  - by intros k r c.
  - repeat constructor; compute_done.
  - repeat constructor; compute_done.
Defined.

(** X11.  Under the same conditions the collection still obeys the unique
    index after the run; if every stored document had a true
    [wallet_address] before the run, every one has after it; and after a run
    that succeeds, every fetched record that passed the winrate filter and
    has a true [wallet_address] has its address in the collection. *)
Theorem run_scrape_stores_valid (m : Qc) (raw : list loc) (w : world) :
  NoDup (keys (coll w)) →
  takes_all (mongod w) →
  Forall (λ l, is_Some (heap w !! l)) raw →
  Forall (λ l, text_address (deref (heap w) l)) raw →
  NoDup (keys (coll (snd (run_scrape m raw w)))) ∧
  (Forall (λ d, _validate_wallet_data d = true) (coll w) →
   Forall (λ d, _validate_wallet_data d = true)
     (coll (snd (run_scrape m raw w)))) ∧
  (fst (run_scrape m raw w) = true →
   ∀ l, l ∈ filter_by_winrate (heap w) raw m →
     _validate_wallet_data (deref (heap w) l) = true →
     index_key (deref (heap w) l) ∈ keys (coll (snd (run_scrape m raw w)))).
Proof.
  intros Hnd Htakes Hall Htext.
  by destruct (healthy_run m raw w Hnd Htakes Hall Htext)
    as (_ & _ & ? & _ & ? & ?).
Qed.

Lemma run_scrape_stores_valid_witness :
  PStr "A" ∈ keys (coll (snd (run_scrape (ratio 1 2) [0; 1]%nat scenario_world))).
Proof.
  assert (Hnd : NoDup (keys (coll scenario_world))) by constructor.
  assert (Htakes : takes_all (mongod scenario_world)) by by intros k r c.
  assert (Hall : Forall (λ l, is_Some (heap scenario_world !! l)) [0; 1]%nat).
  { repeat constructor; compute_done. }
  assert (Htext : Forall (λ l, text_address (deref (heap scenario_world) l))
                    [0; 1]%nat).
  { repeat constructor; compute_done. }
  destruct (run_scrape_stores_valid (ratio 1 2) [0; 1]%nat scenario_world
              Hnd Htakes Hall Htext) as (_ & _ & Hsto).
  apply (Hsto ltac:(compute_done) 0%nat); compute_done.
Defined.

(** Without the condition on the addresses the last two properties fail: a
    fetched record whose address is the operator [$gt] takes the place of
    the document stored for ["A"]. *)
Lemma run_scrape_operator_address :
  let w := mkWorld {[ 0%nat := {[ "wallet_address" := PDict [("$gt", "")];
                                  "winrate_7d" := PNum (ratio 8 10) ]} ]}
             [stale_A] 10 0 [] greater_than in
  fst (run_scrape (ratio 1 2) [0%nat] w) = true ∧
  keys (coll w) = [PStr "A"] ∧
  keys (coll (snd (run_scrape (ratio 1 2) [0%nat] w))) = [PDict [("$gt", "")]].
Proof. cbv zeta. compute_done. Qed.

(** ** Looking a wallet up *)

Lemma get_wallet_None a w : get_wallet a w = None ↔ PStr a ∉ keys (coll w).
Proof. unfold get_wallet. by rewrite fmap_None, find_key_None. Qed.

Lemma get_wallet_Some a w d :
  NoDup (keys (coll w)) →
  get_wallet a w = Some d ↔ d ∈ coll w ∧ index_key d = PStr a.
Proof.
  intros Hnd. unfold get_wallet. split.
  - intros Hg. apply fmap_Some in Hg as ([i d0] & Hf & ->).
    apply list_find_Some in Hf as (Hi & Hk & _).
    split; [by eapply list_elem_of_lookup_2 | done].
  - intros [Hd Hk].
    destruct (list_find (has_key (PStr a)) (coll w)) as [[i d0]|] eqn:Hf.
    + apply list_find_Some in Hf as (Hi & Hk0 & _). simpl. f_equal.
      pose proof (stored_for_unique (PStr a) (coll w) d Hnd Hd Hk) as Hs.
      assert (Hin : d0 ∈ stored_for (PStr a) (coll w)).
      { unfold stored_for. apply list_elem_of_In, filter_In.
        split; [by eapply list_elem_of_In, list_elem_of_lookup_2|].
        by apply bool_decide_eq_true. }
      rewrite Hs in Hin. by apply list_elem_of_singleton in Hin.
    + apply find_key_None in Hf. exfalso. apply Hf.
      apply list_elem_of_fmap. by exists d.
Qed.

Lemma upsert_doc_other d c d' :
  index_key d' ≠ index_key d → d' ∈ upsert_doc d c ↔ d' ∈ c.
Proof.
  intros Hne.
  destruct (list_find (has_key (index_key d)) c) as [[i d0]|] eqn:Hf.
  - pose proof (upsert_doc_found _ _ _ _ Hf) as (-> & Hc & Hk).
    rewrite Hc at 3. rewrite !elem_of_app, !elem_of_cons.
    split; intros [?|[Heq|?]]; auto; by subst.
  - unfold upsert_doc. rewrite Hf, elem_of_app, list_elem_of_singleton.
    split; [intros [?|Heq]; [done | by subst] | auto].
Qed.

(** X12.  Round trip through the collection, by address.  After
    [upsert_wallet] has written a record whose address is the string [a],
    in a collection that obeys the unique index and with a database that
    takes the write, [get_wallet a] finds a document, and its address is
    [a]; [get_wallet] of every other address returns what it returned
    before.  [get_wallet] returns [None] exactly for the addresses no stored
    document has.  Nothing is said of the other fields of the document
    found: they are the database's copy of the record. *)
Theorem get_wallet_after_upsert (l : loc) (a : string) (w : world) :
  NoDup (keys (coll w)) →
  deref (heap w) l !! "wallet_address" = Some (PStr a) →
  accepts (mongod w) (PStr a) (deref (heap (stamp l w)) l) (coll w) = true →
  let w' := snd (upsert_wallet l w) in
  (∃ d, get_wallet a w' = Some d ∧ d !! "wallet_address" = Some (PStr a)) ∧
  (∀ b, b ≠ a → get_wallet b w' = get_wallet b w) ∧
  (∀ b, get_wallet b w' = None ↔ PStr b ∉ keys (coll w')).
Proof.
  intros Hnd Ha Hacc w'. subst w'.
  destruct (upsert_wallet_post l w (PStr a) Hnd Ha (plain_string a) Hacc)
    as (_ & Hh & Hc & _ & Hnd' & _).
  assert (Hk : index_key (deref (heap (stamp l w)) l) = PStr a).
  { apply index_key_address. by rewrite stamp_field. }
  split_and!.
  - exists (deref (heap (stamp l w)) l). split; [|by rewrite stamp_field].
    apply get_wallet_Some; [done|]. rewrite Hc.
    split; [apply upsert_doc_elem | done].
  - intros b Hb. apply option_eq. intros d.
    rewrite !get_wallet_Some by done. rewrite Hc.
    split; intros [Hd Hkd]; (split; [|done]).
    + apply upsert_doc_other in Hd; [done|]. rewrite Hkd, Hk. congruence.
    + apply upsert_doc_other; [|done]. rewrite Hkd, Hk. congruence.
  - intros b. apply get_wallet_None.
Qed.

Lemma get_wallet_after_upsert_witness :
  ∃ d, get_wallet "A" (snd (upsert_wallet 0%nat world_known)) = Some d ∧
       d !! "wallet_address" = Some (PStr "A").
Proof.
  apply (get_wallet_after_upsert 0%nat "A" world_known).
  - apply NoDup_singleton.
  - reflexivity.
  - reflexivity.
Defined.

(** ** More on queries *)

Lemma get_wallets_elem min_winrate limit start_date end_date w d :
  d ∈ get_wallets min_winrate limit start_date end_date w →
  d ∈ coll w ∧ wanted min_winrate start_date end_date d = true.
Proof.
  intros Hd. apply get_wallets_unlimited_elem.
  eapply sublist_subseteq; [apply get_wallets_cut | exact Hd].
Qed.

Lemma get_wallets_length min_winrate limit start_date end_date w :
  (length (get_wallets min_winrate limit start_date end_date w)
     ≤ length (List.filter (wanted min_winrate start_date end_date) (coll w)))%nat.
Proof.
  rewrite <- get_wallets_unlimited_perm.
  apply sublist_length, get_wallets_cut.
Qed.

(** X13.  The limit of [get_wallets].  With a limit of at least [1] the
    result has at most that many documents.  Whatever the parameters, every
    document returned is a document of the collection that the filters ask
    for, and the result holds no more documents than the collection has of
    those. *)
Theorem get_wallets_limit_bounds (min_winrate : option Qc)
    (start_date end_date : option Z) (w : world) (n : Z) :
  (0 < n →
     (length (get_wallets min_winrate (Some n) start_date end_date w)
        ≤ Z.to_nat n)%nat) ∧
  (∀ limit d, d ∈ get_wallets min_winrate limit start_date end_date w →
     d ∈ coll w ∧ wanted min_winrate start_date end_date d = true) ∧
  (∀ limit,
     (length (get_wallets min_winrate limit start_date end_date w)
        ≤ length (List.filter (wanted min_winrate start_date end_date) (coll w))
        ≤ length (coll w))%nat).
Proof.
  split_and!.
  - intros Hn. rewrite get_wallets_limited.
    rewrite bool_decide_eq_true_2 by lia.
    case_bool_decide; [|simpl; lia].
    rewrite length_take, Zabs2Nat.abs_nat_nonneg by lia. lia.
  - intros limit d. apply get_wallets_elem.
  - intros limit. split; [apply get_wallets_length|].
    apply List.filter_length_le.
Qed.

Lemma get_wallets_limit_bounds_witness :
  (length (get_wallets None (Some 1%Z) None None query_world) ≤ 1)%nat.
Proof.
  apply (get_wallets_limit_bounds None None None query_world 1). lia.
Defined.

(** X14.  [get_wallets] only returns values of the right type.  With a
    [min_winrate], every document returned has a number as [winrate_7d]: a
    document without the field, or with [None], is never returned, not even
    for a threshold of [0] or below.  With a date bound, every document
    returned has a date as [scrapeTimestamp].  A range whose end is before
    its start returns nothing. *)
Theorem get_wallets_typed (w : world) :
  (∀ m limit start_date end_date d,
     d ∈ get_wallets (Some m) limit start_date end_date w →
     ∃ q, d !! "winrate_7d" = Some (PNum q) ∧ (m ≤ q)%Qc) ∧
  (∀ min_winrate limit s end_date d,
     d ∈ get_wallets min_winrate limit (Some s) end_date w →
     ∃ t, d !! "scrapeTimestamp" = Some (PTime t) ∧ s ≤ t) ∧
  (∀ min_winrate limit start_date e d,
     d ∈ get_wallets min_winrate limit start_date (Some e) w →
     ∃ t, d !! "scrapeTimestamp" = Some (PTime t) ∧ t ≤ e) ∧
  (∀ min_winrate limit s e, e < s →
     get_wallets min_winrate limit (Some s) (Some e) w = []).
Proof.
  split_and!.
  - intros m limit s e d Hd. apply get_wallets_elem in Hd as [_ Hw].
    unfold wanted, winrate_reaches in Hw.
    destruct (d !! "winrate_7d") as [[| |q| | |]|]; try done.
    exists q. split; [done|].
    apply andb_true_iff in Hw as [Hw _]. apply andb_true_iff in Hw as [Hw _].
    by apply bool_decide_eq_true in Hw.
  - intros mw limit s e d Hd. apply get_wallets_elem in Hd as [_ Hw].
    unfold wanted, scraped_from in Hw.
    apply andb_true_iff in Hw as [Hw _]. apply andb_true_iff in Hw as [_ Hw].
    destruct (d !! "scrapeTimestamp") as [[| | | |t|]|]; try done.
    exists t. split; [done|]. by apply bool_decide_eq_true in Hw.
  - intros mw limit s e d Hd. apply get_wallets_elem in Hd as [_ Hw].
    unfold wanted, scraped_until in Hw.
    apply andb_true_iff in Hw as [_ Hw].
    destruct (d !! "scrapeTimestamp") as [[| | | |t|]|]; try done.
    exists t. split; [done|]. by apply bool_decide_eq_true in Hw.
  - intros mw limit s e Hes.
    assert (Hnone : get_wallets mw None (Some s) (Some e) w = []).
    { rewrite get_wallets_unlimited. rewrite list_filter_none; [done|].
      intros d _. unfold wanted, scraped_from, scraped_until.
      destruct (d !! "scrapeTimestamp") as [[| | | |t|]|];
        rewrite ?andb_false_r; try done.
      destruct (decide (s ≤ t)).
      - rewrite (bool_decide_eq_false_2 (t ≤ e)) by lia.
        by rewrite andb_false_r.
      - rewrite (bool_decide_eq_false_2 (s ≤ t)) by lia.
        by rewrite andb_false_r. }
    rewrite get_wallets_limited, Hnone. destruct limit as [k|]; [|done].
    case_bool_decide; [|done]. case_bool_decide; [|done]. by rewrite take_nil.
Qed.

Lemma get_wallets_typed_witness :
  get_wallets None None (Some 5) (Some 2) query_world = [].
Proof.
  destruct (get_wallets_typed query_world) as (_ & _ & _ & Hempty).
  apply Hempty. lia.
Defined.

(** A record without [winrate_7d] passes [filter_by_winrate] at threshold
    [0], is stored, and is not returned by [get_wallets] at threshold [0]. *)
Lemma missing_winrate_filtered_in_queried_out :
  let w := snd (upsert_wallets_batch (filter_by_winrate sample_heap [2%nat] 0%Qc)
                  (mkWorld sample_heap [] 10 0 [] lenient)) in
  length (coll w) = 1%nat ∧ get_wallets (Some 0%Qc) None None None w = [].
Proof. cbv zeta. compute_done. Qed.

(** ** The API view *)

Lemma list_to_map_keyed {A B : Type} (f : string → A → B)
    (l : list (string * A)) (k : string) :
  (list_to_map ((λ p, (p.1, f p.1 p.2)) <$> l) : gmap string B) !! k =
    f k <$> (list_to_map l : gmap string A) !! k.
Proof.
  induction l as [|[i x] l IH]; [by rewrite fmap_nil, !list_to_map_nil, !lookup_empty|].
  rewrite fmap_cons, !list_to_map_cons, !lookup_insert. cbn [fst snd].
  case_decide; [by subst | done].
Qed.

Lemma transform_for_api_insert iso (d : document) :
  transform_for_api iso d =
    <["scrapeTimestamp"%string :=
        rendered iso (default PNone (d !! "scrapeTimestamp"%string))]>
      (list_to_map ((λ p, (p.1, default p.2 (d !! p.1))) <$> api_fields)).
Proof.
  unfold transform_for_api.
  change (list_to_map (_ :: _))
    with (list_to_map ((λ p, (p.1, default p.2 (d !! p.1))) <$> api_fields)
            : document).
  set (api_data := list_to_map _).
  assert (Hs : api_data !! "scrapeTimestamp"%string
               = Some (default PNone (d !! "scrapeTimestamp"%string))).
  { subst api_data.
    rewrite (list_to_map_keyed (λ k dflt, default dflt (d !! k))).
    by replace ((list_to_map api_fields : document) !! "scrapeTimestamp"%string)
      with (Some PNone) by (symmetry; compute_done). }
  rewrite Hs.
  destruct (d !! "scrapeTimestamp"%string) as [[]|];
    cbn [default from_option id rendered] in *;
    first [done | symmetry; by apply insert_id].
Qed.

Lemma transform_for_api_lookup iso (d : document) (k : string) :
  transform_for_api iso d !! k =
    api_value iso d k <$> (list_to_map api_fields : document) !! k.
Proof.
  rewrite transform_for_api_insert, lookup_insert.
  case_decide as Hk.
  - subst k.
    replace ((list_to_map api_fields : document) !! "scrapeTimestamp"%string)
      with (Some PNone) by (symmetry; compute_done).
    done.
  - rewrite (list_to_map_keyed (λ k dflt, default dflt (d !! k))).
    destruct (list_to_map api_fields !! k) as [dflt|]; [|done].
    cbn. unfold api_value. by rewrite decide_False by done.
Qed.

Lemma api_fields_lookup (k : string) :
  is_Some ((list_to_map api_fields : document) !! k) ↔ k ∈ api_fields.*1.
Proof.
  rewrite <- not_eq_None_Some, <- not_elem_of_list_to_map.
  destruct (decide (k ∈ api_fields.*1)); naive_solver.
Qed.

Lemma rendered_idem iso v : rendered iso (rendered iso v) = rendered iso v.
Proof. by destruct v. Qed.

Lemma transform_for_api_passes iso (d : document) (k : string) (v : pyval) :
  k ∈ api_fields.*1 → k ≠ "scrapeTimestamp"%string →
  d !! k = Some v → transform_for_api iso d !! k = Some v.
Proof.
  intros Hk Hne Hv. rewrite transform_for_api_lookup.
  apply api_fields_lookup in Hk as [dflt ->]. cbn. unfold api_value.
  by rewrite decide_False, Hv by done.
Qed.

Lemma transform_for_api_address iso (d : document) :
  transform_for_api iso d !! "wallet_address"%string = Some (index_key d).
Proof.
  rewrite transform_for_api_lookup.
  by replace ((list_to_map api_fields : document) !! "wallet_address"%string)
    with (Some PNone) by (symmetry; compute_done).
Qed.

(** X15.  The API view of a document has exactly the ten fields of the
    view, whatever the document holds.  A value the document has for a field
    is shown as it is ([None] included: the default only stands in for a
    field that is missing), except that a date under [scrapeTimestamp] is
    shown as text, so that no date is left under [scrapeTimestamp]; a date
    under another field is shown as the date it is.  Transforming a view
    again changes nothing. *)
Theorem transform_for_api_view (isoformat : Z → string) (d : document) :
  (∀ k, is_Some (transform_for_api isoformat d !! k) ↔ k ∈ api_fields.*1) ∧
  (∀ k v, k ∈ api_fields.*1 → k ≠ "scrapeTimestamp"%string →
     d !! k = Some v → transform_for_api isoformat d !! k = Some v) ∧
  (∀ k, d !! k = None →
     transform_for_api isoformat d !! k =
       (list_to_map api_fields : document) !! k) ∧
  (∀ v, d !! "scrapeTimestamp"%string = Some v →
     transform_for_api isoformat d !! "scrapeTimestamp"%string =
       Some (rendered isoformat v)) ∧
  (∀ t, transform_for_api isoformat d !! "scrapeTimestamp"%string
        ≠ Some (PTime t)) ∧
  transform_for_api isoformat (transform_for_api isoformat d) =
    transform_for_api isoformat d.
Proof.
  split_and!.
  - intros k. rewrite transform_for_api_lookup, fmap_is_Some.
    apply api_fields_lookup.
  - intros k v Hk Hne Hv. rewrite transform_for_api_lookup.
    apply api_fields_lookup in Hk as [dflt ->]. cbn. unfold api_value.
    by rewrite decide_False, Hv by done.
  - intros k Hk. rewrite transform_for_api_lookup.
    destruct (list_to_map api_fields !! k) as [dflt|] eqn:Hd; [|done].
    cbn. unfold api_value. rewrite Hk. cbn. case_decide as Hs; [|done].
    subst k. assert (Some dflt = Some PNone) as [= ->]; [|done].
    rewrite <- Hd. compute_done.
  - intros v Hv. rewrite transform_for_api_insert, lookup_insert_eq.
    by rewrite Hv.
  - intros t. rewrite transform_for_api_insert, lookup_insert_eq.
    by destruct (d !! "scrapeTimestamp"%string) as [[]|].
  - apply map_eq. intros k. rewrite (transform_for_api_lookup _ (transform_for_api _ _)).
    rewrite (transform_for_api_lookup _ d).
    destruct (list_to_map api_fields !! k) as [dflt|] eqn:Hd; [|done].
    cbn. f_equal. unfold api_value at 1.
    rewrite transform_for_api_lookup, Hd. cbn.
    case_decide; [|done]. unfold api_value. rewrite decide_True by done.
    apply rendered_idem.
Qed.

Lemma transform_for_api_view_witness :
  transform_for_api (λ _, "1970-01-01T00:00:01"%string) stored_A
    !! "winrate_7d"%string = Some (PNum (ratio 9 10)).
Proof.
  destruct (transform_for_api_view (λ _, "1970-01-01T00:00:01"%string) stored_A)
    as (_ & Hpass & _).
  apply Hpass; compute_done.
Defined.

(** ** The routes of the server *)

Lemma get_wallet_found a w d :
  get_wallet a w = Some d → d ∈ coll w ∧ index_key d = PStr a ∧ d ≠ ∅.
Proof.
  unfold get_wallet. intros Hg.
  apply fmap_Some in Hg as ([i d0] & Hf & ->).
  apply list_find_Some in Hf as (Hi & Hk & _). cbn [snd].
  split_and!; [by eapply list_elem_of_lookup_2 | done |].
  intros ->. by unfold has_key, index_key in Hk.
Qed.

Lemma get_wallet_route_found iso a w d :
  get_wallet a w = Some d →
  get_wallet_route iso a w = Http200 (transform_for_api iso d).
Proof.
  intros Hg. unfold get_wallet_route. rewrite Hg.
  apply get_wallet_found in Hg as (_ & _ & Hne).
  by rewrite bool_decide_eq_false_2.
Qed.

Lemma get_wallet_route_404 iso a w :
  get_wallet_route iso a w = Http404 ↔ PStr a ∉ keys (coll w).
Proof.
  destruct (get_wallet a w) as [d|] eqn:Hg.
  - rewrite (get_wallet_route_found _ _ _ _ Hg).
    split; [done|]. intros Hk. apply get_wallet_None in Hk. congruence.
  - unfold get_wallet_route. rewrite Hg. split; [|done].
    intros _. by apply get_wallet_None.
Qed.

(** X16.  [GET /wallets/<segment>].  The request reaches the handler of
    [/wallets/{wallet_address}] exactly when the segment is not empty, is not
    [stats] and holds no [/].  A request that reaches it is answered 404
    exactly when no stored document has the segment as its address;
    otherwise it is answered with the API view of a stored document, and the
    [wallet_address] of that view is the segment. *)
Theorem get_wallet_route_answers (isoformat : Z → string) (a : string)
    (w : world) :
  (wallets_path isoformat a w = None ↔
     a = ""%string ∨ a = "stats"%string ∨ has_slash a = true) ∧
  (wallets_path isoformat a w = Some Http404 ↔
     reaches_get_wallet a = true ∧ PStr a ∉ keys (coll w)) ∧
  (reaches_get_wallet a = true → PStr a ∈ keys (coll w) →
   ∃ d, d ∈ coll w ∧
        wallets_path isoformat a w =
          Some (Http200 (transform_for_api isoformat d)) ∧
        transform_for_api isoformat d !! "wallet_address"%string
          = Some (PStr a)).
Proof.
  unfold wallets_path. split_and!.
  - unfold reaches_get_wallet.
    destruct (decide (a = ""%string)) as [->|H1]; [naive_solver|].
    destruct (decide (a = "stats"%string)) as [->|H2]; [naive_solver|].
    rewrite !bool_decide_eq_false_2 by done. simpl.
    destruct (has_slash a); simpl; naive_solver.
  - destruct (reaches_get_wallet a); [|by split; [|intros [? _]]].
    rewrite <- get_wallet_route_404.
    split; [by intros [= ->] | by intros [_ ->]].
  - intros -> Hk. destruct (get_wallet a w) as [d|] eqn:Hg.
    + pose proof (get_wallet_found _ _ _ Hg) as (Hd & Ha & _).
      exists d. split_and!; [done | by rewrite (get_wallet_route_found _ _ _ d) |].
      by rewrite transform_for_api_address, Ha.
    + by apply get_wallet_None in Hg.
Qed.

Lemma get_wallet_route_answers_witness :
  ∃ d, d ∈ coll query_world ∧
       wallets_path (λ _, "1970-01-01T00:00:02"%string) "B" query_world =
         Some (Http200 (transform_for_api (λ _, "1970-01-01T00:00:02"%string) d)) ∧
       transform_for_api (λ _, "1970-01-01T00:00:02"%string) d
         !! "wallet_address"%string = Some (PStr "B").
Proof.
  apply (get_wallet_route_answers (λ _, "1970-01-01T00:00:02"%string) "B"
           query_world).
  - reflexivity.
  - compute_done.
Defined.

(** A wallet stored under the address [stats], or under an address with a
    [/] in it, is out of reach of this route. *)
Lemma wallets_path_out_of_reach :
  let w := set_coll [ {[ "wallet_address" := PStr "stats" ]};
                      {[ "wallet_address" := PStr "a/b" ]} ] query_world in
  wallets_path (λ _, ""%string) "stats" w = None ∧
  wallets_path (λ _, ""%string) "a/b" w = None.
Proof. done. Qed.

(** X17.  A record written by [upsert_wallet] is served.  Take a collection
    that obeys the unique index and a record whose address is a string that
    reaches the route, and let the database take the write.  After the call
    the route answers the record's address with an API view, not with 404,
    and the [wallet_address] of that view is the address.  Nothing is said
    of the other fields of the view: they come from the database's copy of
    the record. *)
Theorem get_wallet_route_after_upsert (isoformat : Z → string) (l : loc)
    (a : string) (w : world) :
  NoDup (keys (coll w)) →
  deref (heap w) l !! "wallet_address" = Some (PStr a) →
  accepts (mongod w) (PStr a) (deref (heap (stamp l w)) l) (coll w) = true →
  reaches_get_wallet a = true →
  ∃ body,
    wallets_path isoformat a (snd (upsert_wallet l w)) = Some (Http200 body) ∧
    body !! "wallet_address"%string = Some (PStr a).
Proof.
  intros Hnd Ha Hacc Hreach.
  destruct (upsert_wallet_post l w (PStr a) Hnd Ha (plain_string a) Hacc)
    as (_ & Hh & Hc & _ & Hnd' & _).
  assert (Hk : index_key (deref (heap (stamp l w)) l) = PStr a).
  { apply index_key_address. by rewrite stamp_field. }
  exists (transform_for_api isoformat (deref (heap (stamp l w)) l)). split.
  - unfold wallets_path. rewrite Hreach. f_equal.
    apply get_wallet_route_found, get_wallet_Some; [done|].
    rewrite Hc. split; [apply upsert_doc_elem | done].
  - by rewrite transform_for_api_address, Hk.
Qed.

Lemma get_wallet_route_after_upsert_witness :
  ∃ body,
    wallets_path (λ _, "1970-01-01T00:00:10"%string) "A"
      (snd (upsert_wallet 0%nat world_known)) = Some (Http200 body) ∧
    body !! "wallet_address"%string = Some (PStr "A").
Proof.
  apply (get_wallet_route_after_upsert (λ _, "1970-01-01T00:00:10"%string)
           0%nat "A" world_known).
  - apply NoDup_singleton.
  - reflexivity.
  - reflexivity.
  - reflexivity.
Defined.

Lemma parse_date_empty fromisoformat :
  parse_date fromisoformat (Some ""%string) = parse_date fromisoformat None.
Proof. done. Qed.

Lemma get_wallets_length_limit min_winrate start_date end_date w n :
  1 ≤ n →
  Z.of_nat (length (get_wallets min_winrate (Some n) start_date end_date w)) ≤ n.
Proof.
  intros Hn. rewrite get_wallets_limited.
  rewrite bool_decide_eq_true_2 by lia.
  case_bool_decide; [|simpl; lia].
  rewrite length_take, Zabs2Nat.abs_nat_nonneg by lia. lia.
Qed.

(** X18.  [GET /wallets], for parameters that parse to the types declared
    for them.  The request is refused as unprocessable exactly when a
    [limit] is given outside [1..1000], and that before anything is read, so
    the route never queries with a limit of [0].  It is refused with
    400 exactly when the limit is in order and one of the two dates is given,
    is not empty and does not parse.  In every other case the route answers:
    [count] is the number of wallets of the body, at most [limit] when one is
    given, and never more than the collection holds; every wallet of the
    body is the API view of a stored document; with a [min_winrate], its
    [winrate_7d] is a number that reaches it.  An empty date string is no
    bound at all. *)
Theorem get_wallets_route_answers (isoformat : Z → string)
    (fromisoformat : string → option Z) (min_winrate : option Qc)
    (limit : option Z) (start_date end_date : option string) (w : world) :
  let answer := get_wallets_route isoformat fromisoformat min_winrate limit
                  start_date end_date w in
  let limit_in_order := ∀ n, limit = Some n → 1 ≤ n ≤ 1000 in
  let date_refused :=
    parse_date fromisoformat start_date = Raise ∨
    parse_date fromisoformat end_date = Raise in
  (answer = Unprocessable ↔ ¬ limit_in_order) ∧
  (answer = Http400 ↔ limit_in_order ∧ date_refused) ∧
  ((∃ body, answer = Http200 body) ↔ limit_in_order ∧ ¬ date_refused) ∧
  (∀ wallets count, answer = Http200 (wallets, count) →
     count = length wallets ∧
     (count ≤ length (coll w))%nat ∧
     (∀ n, limit = Some n → Z.of_nat count ≤ n ≤ 1000) ∧
     Forall (λ v, ∃ d, d ∈ coll w ∧ v = transform_for_api isoformat d)
       wallets ∧
     (∀ m, min_winrate = Some m →
        Forall (λ v, ∃ q, v !! "winrate_7d"%string = Some (PNum q) ∧ (m ≤ q)%Qc)
          wallets)) ∧
  get_wallets_route isoformat fromisoformat min_winrate limit
    (Some ""%string) end_date w =
  get_wallets_route isoformat fromisoformat min_winrate limit None end_date w ∧
  get_wallets_route isoformat fromisoformat min_winrate limit
    start_date (Some ""%string) w =
  get_wallets_route isoformat fromisoformat min_winrate limit start_date None w.
Proof.
  intros answer limit_in_order date_refused.
  assert (Hguard : (match limit with
                    | Some n => bool_decide (1 ≤ n ≤ 1000)
                    | None => true
                    end) = true ↔ limit_in_order).
  { subst limit_in_order. destruct limit as [n|].
    - rewrite bool_decide_eq_true. split; [by intros ? ? [= <-] | auto].
    - split; [by intros _ n | done]. }
  assert (Hcases :
    (¬ limit_in_order ∧ answer = Unprocessable) ∨
    (limit_in_order ∧ date_refused ∧ answer = Http400) ∨
    (limit_in_order ∧ ¬ date_refused ∧ ∃ body, answer = Http200 body)).
  { subst answer date_refused. unfold get_wallets_route.
    destruct (match limit with Some n => _ | None => _ end) eqn:Hl.
    - assert (Hin : limit_in_order) by by apply Hguard.
      right.
      destruct (parse_date fromisoformat start_date) as [start_dt|];
        [|left; auto].
      destruct (parse_date fromisoformat end_date) as [end_dt|];
        [|left; auto].
      right. split_and!; [done | by intros [?|?] | by eexists].
    - left. split; [|done]. intros Hin. by apply Hguard in Hin. }
  split_and!.
  - destruct Hcases as [(? & ->)|[(? & ? & ->)|(? & ? & ? & ->)]]; naive_solver.
  - destruct Hcases as [(? & ->)|[(? & ? & ->)|(? & ? & ? & ->)]]; naive_solver.
  - destruct Hcases as [(? & ->)|[(? & ? & ->)|(? & ? & ? & ->)]]; naive_solver.
  - clear Hcases. subst answer. intros wallets count. unfold get_wallets_route.
    destruct (match limit with Some n => _ | None => _ end) eqn:Hl; [|done].
    destruct (parse_date fromisoformat start_date) as [start_dt|]; [|done].
    destruct (parse_date fromisoformat end_date) as [end_dt|]; [|done].
    cbv zeta. intros [= <- <-]. rewrite length_fmap. split_and!.
    + done.
    + etrans; [apply get_wallets_length | apply List.filter_length_le].
    + intros n ->. apply bool_decide_eq_true in Hl.
      split; [|lia]. apply get_wallets_length_limit. lia.
    + apply Forall_fmap, Forall_forall. intros d Hd. exists d.
      by apply get_wallets_elem in Hd as [? _].
    + intros m ->. apply Forall_fmap, Forall_forall. intros d Hd. cbn.
      apply get_wallets_elem in Hd as [_ Hw].
      unfold wanted, winrate_reaches in Hw.
      destruct (d !! "winrate_7d"%string) as [[| |q| | |]|] eqn:Hq; try done.
      exists q. split.
      * apply transform_for_api_passes; [compute_done | done | done].
      * apply andb_true_iff in Hw as [Hw _].
        apply andb_true_iff in Hw as [Hw _].
        by apply bool_decide_eq_true in Hw.
  - unfold get_wallets_route. by rewrite parse_date_empty.
  - unfold get_wallets_route. by rewrite parse_date_empty.
Qed.

Lemma get_wallets_route_answers_witness :
  Forall (λ v, ∃ d, d ∈ coll query_world ∧
                    v = transform_for_api (λ _, "1970-01-01T00:00:01"%string) d)
    [transform_for_api (λ _, "1970-01-01T00:00:01"%string) stored_A].
Proof.
  destruct (get_wallets_route_answers (λ _, "1970-01-01T00:00:01"%string)
              (λ _, None) (Some (ratio 5 10)) (Some 1) None None query_world)
    as (_ & _ & _ & Hbody & _).
  destruct (Hbody [transform_for_api (λ _, "1970-01-01T00:00:01"%string) stored_A]
              1%nat) as (_ & _ & _ & Hviews & _); [|exact Hviews].
  reflexivity.
Defined.
